(** * Texus: event hooks, command invocation and the audio node cluster

    A shallow embedding of
    - [discord/ext/audio/__init__.py]  ([add_event_hook]),
    - [discord/application/command.py] ([wrap_callback],
      [hooked_wrapped_callback], [ApplicationCommand.prepare],
      [ApplicationCommand.invoke], [call_before_hooks], [call_after_hooks]),
    together with models of the audio cluster components that the package
    imports but whose modules are not part of the sources at hand
    ([Client], [NodeManager], [Node], [WebSocket]). *)

From Stdlib Require Import ZArith Lia.
From stdpp Require Import base option list gmap strings sorting.

Open Scope string_scope.
Open Scope list_scope.

(** ** Exceptions and results *)

(** The exception classes the embedded code raises or catches. *)
Inductive Exc : Type :=
  | TypeError (msg : string)
  | CheckFailure (msg : string)
  | ApplicationCommandError (msg : string)
  | ApplicationCommandInvokeError (original : Exc)
  | CancelledError
  | OtherException (name : string)
  | OtherBaseException (name : string)
  | NoAvailableNodes
  | NodeUnavailable.

(** A call either returns a value or raises. *)
Inductive result (A : Type) : Type :=
  | Ok (a : A)
  | Raise (e : Exc).
Arguments Ok {A} a.
Arguments Raise {A} e.

Definition is_raise {A} (r : result A) : bool :=
  match r with Ok _ => false | Raise _ => true end.

(** ** A small Python object model *)

(** A class object: its identity (classes are compared as objects, and two
    classes may well share a name), its [__name__] and its [__bases__], the
    immediate base classes in declaration order. *)
#[warnings="-register-all"]
Inductive PyClass : Type :=
  | Class (id : nat) (name : string) (bases : list PyClass).

Definition __name__ (c : PyClass) : string :=
  match c with Class _ n _ => n end.

Definition __bases__ (c : PyClass) : list PyClass :=
  match c with Class _ _ bs => bs end.

(** [c is d]: the same class object. *)
Fixpoint class_eqb (c d : PyClass) {struct c} : bool :=
  match c, d with
  | Class i n bs, Class j m ds =>
      Nat.eqb i j && String.eqb n m &&
      (fix all2 (l1 l2 : list PyClass) {struct l1} : bool :=
         match l1, l2 with
         | [], [] => true
         | x :: xs, y :: ys => class_eqb x y && all2 xs ys
         | _, _ => false
         end) bs ds
  end.

(** [x in tuple] on class objects. *)
Definition class_in (c : PyClass) (cs : list PyClass) : bool :=
  existsb (class_eqb c) cs.

Definition object : PyClass := Class 0 "object" [].

(** [events.Event], the root of the event classes, and the event classes
    that [__init__.py] imports from [.events]. *)
Definition Event : PyClass := Class 1 "Event" [object].
Definition TrackStartEvent : PyClass := Class 2 "TrackStartEvent" [Event].
Definition TrackStuckEvent : PyClass := Class 3 "TrackStuckEvent" [Event].
Definition TrackExceptionEvent : PyClass := Class 4 "TrackExceptionEvent" [Event].
Definition TrackEndEvent : PyClass := Class 5 "TrackEndEvent" [Event].
Definition QueueEndEvent : PyClass := Class 6 "QueueEndEvent" [Event].
Definition NodeConnectedEvent : PyClass := Class 7 "NodeConnectedEvent" [Event].
Definition NodeChangedEvent : PyClass := Class 8 "NodeChangedEvent" [Event].
Definition NodeDisconnectedEvent : PyClass := Class 9 "NodeDisconnectedEvent" [Event].
Definition WebSocketClosedEvent : PyClass := Class 10 "WebSocketClosedEvent" [Event].

(** What kind of object is passed as a hook. *)
Inductive HookKind : Type :=
  | AsyncDef      (* [async def f(...)]: a coroutine function *)
  | PlainDef      (* [def f(...)], a lambda, a callable object *)
  | NotCallable.  (* anything else: a string, a number, [None] ... *)

(** A hook argument: an object (identified by [hook_id]) of some kind. *)
Record Hook : Type := MkHook { hook_id : nat; hook_kind : HookKind }.

#[global] Instance HookKind_eq_dec : EqDecision HookKind.
Proof. solve_decision. Defined.

#[global] Instance Hook_eq_dec : EqDecision Hook.
Proof. solve_decision. Defined.

(** The builtin [callable]. *)
Definition callable (h : Hook) : bool :=
  match hook_kind h with NotCallable => false | _ => true end.

(** [inspect.iscoroutinefunction]. *)
Definition iscoroutinefunction (h : Hook) : bool :=
  match hook_kind h with AsyncDef => true | _ => false end.

(** A hook that passes the test of [add_event_hook]: callable, and a
    coroutine function. *)
Definition is_async_callable (h : Hook) : bool :=
  callable h && iscoroutinefunction h.

(** ** The hook registry and [add_event_hook] *)

(** Modelled from the spec: [Client._event_hooks]. The class [Client] lives
    in [discord/ext/audio/client.py], which is not among the sources; the
    design notes describe the attribute as the "dynamic event-hook list
    keyed by class name (global mutable registry)". It is a map from a class
    name (or ['Generic']) to the ordered list of hooks registered under it;
    [add_event_hook] reads [Client._event_hooks[event_name]] without
    creating the key first, so reading a key that has no list yet binds it
    to a fresh empty list. *)
Abbreviation Registry := (gmap string (list Hook)).

(** [Client._event_hooks[key]]: the list under [key], bound on first use. *)
Definition event_hooks_of (reg : Registry) (key : string) : list Hook :=
  default [] (reg !! key).

(** The body of [for hook in hooks: ...] of [add_event_hook], run on the
    list object [event_hooks]; returns the list as the loop leaves it. *)
Fixpoint register_hooks (hooks : list Hook) (event_hooks : list Hook)
  : list Hook * result unit :=
  match hooks with
  | [] => (event_hooks, Ok tt)
  | hook :: hooks' =>
      if negb (callable hook) || negb (iscoroutinefunction hook) then
        (event_hooks, Raise (TypeError "Hook is not callable or a coroutine"))
      else if bool_decide (hook ∈ event_hooks) then
        register_hooks hooks' event_hooks
      else
        register_hooks hooks' (event_hooks ++ [hook])
  end.

(** [add_event_hook] applied to the positional [hooks] and the keyword
    [event] (default [None]). The registry is global state: the function
    takes it and returns it together with the outcome. The list read from
    the registry is the object stored there, so what the loop appends is
    visible in the registry also when the loop raises. *)
Definition hook_type_error : Exc :=
  TypeError "Hook is not callable or a coroutine".

Definition event_type_error : Exc :=
  TypeError "Event parameter is not of type Event or None".

(** The key [add_event_hook] files the hooks under. *)
Definition event_name_of (event : option PyClass) : string :=
  match event with Some e => __name__ e | None => "Generic" end.

(** The event argument passes the first test of [add_event_hook]. *)
Definition event_accepted (event : option PyClass) : bool :=
  match event with
  | Some e => class_in Event (__bases__ e)
  | None => true
  end.

Definition add_event_hook (hooks : list Hook) (event : option PyClass)
    (reg : Registry) : Registry * result unit :=
  if match event with
     | Some e => negb (class_in Event (__bases__ e))
     | None => false
     end
  then (reg, Raise (TypeError "Event parameter is not of type Event or None"))
  else
    let event_name :=
      match event with Some e => __name__ e | None => "Generic" end in
    let '(event_hooks, r) :=
      register_hooks hooks (event_hooks_of reg event_name) in
    (<[event_name := event_hooks]> reg, r).

(** ** The event bus *)

(** An event instance; [type_of ev] is [type(event)]. *)
Record PyEvent : Type := MkEvent { type_of : PyClass; guild_id : Z }.

(** What the bus has done so far: the handlers it invoked, in order, and
    the errors it handed to the observability sink. *)
Record BusLog : Type := MkBusLog {
  invoked : list Hook;
  sink : list (Hook * Exc)
}.

Definition empty_log : BusLog := MkBusLog [] [].

(** Awaiting [hook(event)]: the handler returns or raises. *)
Definition Behaviour : Type := Hook -> PyEvent -> result unit.

(** One delivery: the handler is invoked; an error it raises is caught and
    reported to the sink, and the delivery itself returns normally. *)
Definition deliver_one (run : Behaviour) (event : PyEvent) (h : Hook)
    (log : BusLog) : BusLog * result unit :=
  let log1 := MkBusLog (invoked log ++ [h]) (sink log) in
  match run h event with
  | Ok _ => (log1, Ok tt)
  | Raise e => (MkBusLog (invoked log1) (sink log1 ++ [(h, e)]), Ok tt)
  end.

(** Delivery to a list of handlers, one after the other; it stops at the
    first delivery that raises. *)
Fixpoint deliver (run : Behaviour) (event : PyEvent) (handlers : list Hook)
    (log : BusLog) : BusLog * result unit :=
  match handlers with
  | [] => (log, Ok tt)
  | h :: hs =>
      match deliver_one run event h log with
      | (log1, Ok _) => deliver run event hs log1
      | (log1, Raise e) => (log1, Raise e)
      end
  end.

(** The handlers that match an event: those registered under the name of
    its type, and the generic ones. *)
Definition matching_hooks (reg : Registry) (event : PyEvent) : list Hook :=
  event_hooks_of reg (__name__ (type_of event)) ++ event_hooks_of reg "Generic".

(** Modelled from the spec: [publish(event)] of the EventBus (the
    dispatcher of [Client], in [discord/ext/audio/client.py], is not among
    the sources). "[publish(event)] invokes all matching handlers; a handler
    raising an error is isolated -- it must not prevent delivery to other
    handlers nor crash the publisher; the error is reported to an
    observability sink, not re-raised." *)
Definition publish (run : Behaviour) (reg : Registry) (event : PyEvent)
    (log : BusLog) : BusLog * result unit :=
  deliver run event (matching_hooks reg event) log.

(** The registries that calls of [add_event_hook] build, starting from the
    empty one. *)
Inductive registered : Registry -> Prop :=
  | registered_empty : registered ∅
  | registered_add hooks event reg :
      registered reg -> registered (add_event_hook hooks event reg).1.

(** The errors that a delivery to [handlers] reports, in order. *)
Definition reported (run : Behaviour) (event : PyEvent) (handlers : list Hook)
  : list (Hook * Exc) :=
  flat_map (fun h => match run h event with
                     | Ok _ => []
                     | Raise e => [(h, e)]
                     end) handlers.

(** Some hook arguments: two coroutine functions, a plain function, and an
    object that is not callable. *)
Definition on_track_end : Hook := MkHook 1 AsyncDef.
Definition on_any_event : Hook := MkHook 2 AsyncDef.
Definition plain_function : Hook := MkHook 3 PlainDef.
Definition not_a_function : Hook := MkHook 4 NotCallable.

(** A class that derives from [Event] through [TrackEndEvent] only. *)
Definition CustomTrackEndEvent : PyClass :=
  Class 11 "CustomTrackEndEvent" [TrackEndEvent].

(** A class named [Generic] that derives from [Event] directly. *)
Definition GenericNamedEvent : PyClass := Class 12 "Generic" [Event].

(** The registry of the scenario: two handlers for [TrackEndEvent], one
    generic handler. *)
Definition two_and_one : Registry :=
  (add_event_hook [on_any_event] None
     (add_event_hook [on_track_end; MkHook 5 AsyncDef] (Some TrackEndEvent) ∅).1).1.

(** One handler registered twice: for [TrackEndEvent] and as a generic
    handler. *)
Definition both_keys : Registry :=
  (add_event_hook [on_track_end] None
     (add_event_hook [on_track_end] (Some TrackEndEvent) ∅).1).1.

(** One handler registered for one event type only, a class that is named
    [Generic]. *)
Definition generic_by_name : Registry :=
  (add_event_hook [on_track_end] (Some GenericNamedEvent) ∅).1.

Definition quiet : Behaviour := fun _ _ => Ok tt.

(** The first handler for [TrackEndEvent] fails. *)
Definition failing_first : Behaviour :=
  fun h _ => if decide (h = on_track_end)
             then Raise (OtherException "ValueError") else Ok tt.

(** ** Transport: the per-node connection and its reconnect policy *)

Inductive ConnectionState : Type :=
  | Connecting
  | Connected
  | Disconnected
  | Reconnecting
  | Closed.

#[global] Instance ConnectionState_eq_dec : EqDecision ConnectionState.
Proof. solve_decision. Defined.

(** An outbound message: [{op, guildId, ...params}]. *)
Record Message : Type := MkMessage {
  op : string;
  guildId : Z;
  params : string
}.

(** The backoff constants; the spec leaves their values to configuration. *)
Record Backoff : Type := MkBackoff {
  base_delay : Z;
  max_delay : Z
}.

(** A transport: its state, the delay its next reconnect attempt will wait,
    and the messages written to the socket so far. *)
Record Transport : Type := MkTransport {
  connectionState : ConnectionState;
  delay : Z;
  outbound : list Message
}.

(** What happens to a transport. *)
Inductive TransportEvent : Type :=
  | Connect            (* [connect()] *)
  | HandshakeSucceeded
  | HandshakeFailed
  | SocketError
  | RemoteClose
  | LivenessExpired    (* no message within the liveness window *)
  | BackoffElapsed
  | Shutdown.          (* [close()] *)

Definition new_transport (p : Backoff) : Transport :=
  MkTransport Disconnected (base_delay p) [].

(** The delay after [d]: doubled, up to the ceiling. *)
Definition next_delay (p : Backoff) (d : Z) : Z :=
  Z.min (2 * d) (max_delay p).

(** The connection is lost or an attempt failed: the transport passes
    through [Disconnected] into [Reconnecting], waits the current delay and
    grows the delay for the attempt after this one. *)
Definition lose (p : Backoff) (t : Transport) : Transport * option Z :=
  (MkTransport Reconnecting (next_delay p (delay t)) (outbound t),
   Some (delay t)).

(** Modelled from the spec: the state machine of the Transport (the class
    [WebSocket], in [discord/ext/audio/websocket.py], is not among the
    sources). "[Connecting -> Connected] on handshake success;
    [Connected -> Disconnected] on socket error or remote close;
    [Disconnected -> Reconnecting] automatically unless the cluster is
    shutting down; [Reconnecting -> Connecting] after a backoff delay;
    terminal state [Closed] only on explicit shutdown. Backoff policy: delay
    grows monotonically between reconnect attempts up to a capped maximum
    (e.g., doubling from a small base up to a ceiling), reset to the base
    delay immediately upon a successful [Connected] transition."
    The second component is the backoff delay the transition starts to
    wait, when it starts one. *)
Definition step (p : Backoff) (t : Transport) (ev : TransportEvent)
  : Transport * option Z :=
  match connectionState t, ev with
  | Closed, _ => (t, None)
  | _, Shutdown => (MkTransport Closed (delay t) (outbound t), None)
  | Disconnected, Connect => (MkTransport Connecting (delay t) (outbound t), None)
  | Connecting, HandshakeSucceeded =>
      (MkTransport Connected (base_delay p) (outbound t), None)
  | Connecting, HandshakeFailed => lose p t
  | Connecting, SocketError => lose p t
  | Connecting, RemoteClose => lose p t
  | Connected, SocketError => lose p t
  | Connected, RemoteClose => lose p t
  | Connected, LivenessExpired => lose p t
  | Reconnecting, BackoffElapsed =>
      (MkTransport Connecting (delay t) (outbound t), None)
  | _, _ => (t, None)
  end.

(** A run of the machine over a list of events: the final transport and the
    backoff delays waited on the way, in order. *)
Fixpoint run (p : Backoff) (t : Transport) (evs : list TransportEvent)
  : Transport * list Z :=
  match evs with
  | [] => (t, [])
  | ev :: evs' =>
      let '(t1, d) := step p t ev in
      let '(t2, ds) := run p t1 evs' in
      (t2, match d with Some d => d :: ds | None => ds end)
  end.

Definition is_success (ev : TransportEvent) : bool :=
  match ev with HandshakeSucceeded => true | _ => false end.

(** The delay of a transport stays between the base and the ceiling. *)
Definition delay_in_range (p : Backoff) (t : Transport) : Prop :=
  (base_delay p <= delay t <= max_delay p)%Z.

(** A policy: one second at first, at most a minute. *)
Definition one_to_sixty : Backoff := MkBackoff 1 60.

(** ** Node *)

(** A snapshot of a node's telemetry, replaced whole by each stats message.
    The CPU load is kept as an integer (a fixed-point reading). *)
Record NodeStats : Type := MkNodeStats {
  playerCount : Z;
  playingPlayerCount : Z;
  cpuSystemLoad : Z;
  cpuCores : Z;
  framesSent : Z;
  framesNulled : Z;
  framesDeficit : Z;
  memoryUsed : Z
}.

Record Node : Type := MkNode {
  identifier : string;
  transport : Transport;
  stats : option NodeStats;
  assignedGuilds : gset Z
}.

(** [available]: derived, [connectionState == Connected]. *)
Definition available (n : Node) : bool :=
  bool_decide (connectionState (transport n) = Connected).

(** Modelled from the spec: [Node.send] (the class [Node], in
    [discord/ext/audio/node.py], is not among the sources).
    "[send(guildID, payload)] -- forwards a player command, fails with
    [NodeUnavailable] if [connectionState != Connected]"; the command goes
    out on the node's transport as one message and nothing waits. *)
Definition send (guildID : Z) (payload : Message) (n : Node)
  : Node * result unit :=
  if bool_decide (connectionState (transport n) ≠ Connected) then
    (n, Raise NodeUnavailable)
  else
    let t := transport n in
    let msg := MkMessage (op payload) guildID (params payload) in
    (MkNode (identifier n)
            (MkTransport (connectionState t) (delay t) (outbound t ++ [msg]))
            (stats n) (assignedGuilds n),
     Ok tt).

(** ** NodeManager *)

Section NodeManager.

(** The penalty formula and the sentinel for a node without telemetry are
    configuration: only the order they induce matters. *)
Variable penalty_of_stats : NodeStats -> Z.
Variable unknown_load_penalty : Z.

(** [Node.penalty()]: the score of the latest snapshot, or the sentinel. *)
Definition penalty (n : Node) : Z :=
  match stats n with
  | Some s => penalty_of_stats s
  | None => unknown_load_penalty
  end.

(** [a] is to be preferred to [b]: a lower penalty, or the same penalty and
    fewer assigned guilds. *)
Definition better (a b : Node) : bool :=
  (penalty a <? penalty b)%Z
  || ((penalty a =? penalty b)%Z
      && (size (assignedGuilds a) <? size (assignedGuilds b))%nat).

(** The scan over the configured nodes, in configuration order, from
    position [i]: [best] is the preferred available node seen so far. *)
Fixpoint scan_nodes (nodes : list Node) (i : nat) (best : option (nat * Node))
  : option (nat * Node) :=
  match nodes with
  | [] => best
  | n :: nodes' =>
      let best' :=
        if available n then
          match best with
          | None => Some (i, n)
          | Some (_, b) => if better n b then Some (i, n) else best
          end
        else best in
      scan_nodes nodes' (S i) best'
  end.

Definition best_node (nodes : list Node) : option (nat * Node) :=
  scan_nodes nodes 0 None.

Definition add_guild (guildID : Z) (n : Node) : Node :=
  MkNode (identifier n) (transport n) (stats n) ({[guildID]} ∪ assignedGuilds n).

(** Modelled from the spec: [NodeManager.assign] (the class [NodeManager],
    in [discord/ext/audio/nodemanager.py], is not among the sources).
    "Selection algorithm (best-node): among Nodes with [available == true],
    choose the one with the lowest [penalty()]; ties broken by fewest
    [assignedGuilds], further ties broken by configuration order. If no Node
    is available, fails with [NoAvailableNodes]." "[assign(guildID) -> Node]:
    selects best Node, adds [guildID] to its [assignedGuilds], returns it."
    The cluster is the list of nodes in configuration order; the result
    names the node by its position and gives its new state. *)
Definition assign (guildID : Z) (nodes : list Node)
  : list Node * result (nat * Node) :=
  match best_node nodes with
  | None => (nodes, Raise NoAvailableNodes)
  | Some (i, n) =>
      let n' := add_guild guildID n in
      (<[i := n']> nodes, Ok (i, n'))
  end.

(** The node [n] at position [i] is chosen before the node [m] at position
    [j]: lower penalty; or the same penalty and fewer guilds; or the same
    penalty, as many guilds, and not later in the configuration. *)
Definition chosen_before (i : nat) (n : Node) (j : nat) (m : Node) : Prop :=
  (penalty n < penalty m)%Z
  \/ (penalty n = penalty m
      /\ (size (assignedGuilds n) < size (assignedGuilds m)
          \/ (size (assignedGuilds n) = size (assignedGuilds m) /\ i <= j))).

(** [best] is the choice among the nodes of [seen]. *)
Definition choice_of (seen : list Node) (best : option (nat * Node)) : Prop :=
  match best with
  | None => forall j m, seen !! j = Some m -> available m = false
  | Some (i, n) =>
      seen !! i = Some n
      /\ available n = true
      /\ forall j m, seen !! j = Some m -> available m = true ->
           chosen_before i n j m
  end.

End NodeManager.

(** ** Application commands ([discord/application/command.py]) *)

Module Application.

(** The three places a before- or after-invoke hook can come from. *)
Inductive HookSource : Type := LocalHook | CogHook | BotHook.

(** The coroutines of the command machinery that get awaited. *)
Inductive Call : Type :=
  | CanRun
  | BeforeHooks
  | BeforeHook (src : HookSource)
  | Callback
  | AfterHooks
  | AfterHook (src : HookSource).

#[global] Instance HookSource_eq_dec : EqDecision HookSource.
Proof. solve_decision. Defined.

#[global] Instance Call_eq_dec : EqDecision Call.
Proof. solve_decision. Defined.

(** The state an invocation works on: the coroutines entered so far, in
    order, and the attribute [ctx.command] (the command's name). *)
Record World : Type := MkWorld {
  trace : list Call;
  ctx_command : option string
}.

(** A coroutine: it runs on the world and returns or raises. *)
Definition Coro (A : Type) : Type := World -> World * result A.

Definition ret {A} (a : A) : Coro A := fun w => (w, Ok a).

Definition raise {A} (e : Exc) : Coro A := fun w => (w, Raise e).

Definition bind {A B} (m : Coro A) (k : A -> Coro B) : Coro B :=
  fun w =>
    match m w with
    | (w1, Ok a) => k a w1
    | (w1, Raise e) => (w1, Raise e)
    end.

Notation "'do' x <- m ; k" := (bind m (fun x => k))
  (at level 10, x name, m at level 100, k at level 200).
Notation "'do_' m ; k" := (bind m (fun _ => k))
  (at level 10, m at level 100, k at level 200).

(** Entering a coroutine of the machinery. *)
Definition enter (c : Call) : Coro unit :=
  fun w => (MkWorld (trace w ++ [c]) (ctx_command w), Ok tt).

(** Awaiting user code: a check, a hook or the callback. User code is
    known by its outcome only. *)
Definition await {A} (outcome : result A) : Coro A :=
  fun w => (w, outcome).

(** [try: body finally: fin]. The [finally] block runs however the body
    ends; when it raises, its exception replaces the body's outcome. *)
Definition try_finally {A} (body : Coro A) (fin : Coro unit) : Coro A :=
  fun w =>
    let '(w1, r) := body w in
    match fin w1 with
    | (w2, Ok _) => (w2, r)
    | (w2, Raise e) => (w2, Raise e)
    end.

(** [try: body except ...: handler]. *)
Definition try_except {A} (body : Coro A) (handler : Exc -> Coro A) : Coro A :=
  fun w =>
    match body w with
    | (w1, Ok a) => (w1, Ok a)
    | (w1, Raise e) => handler e w1
    end.

(** [isinstance(e, ApplicationCommandError)], by the classes of
    [discord/application/errors.py]. *)
Definition is_ApplicationCommandError (e : Exc) : bool :=
  match e with
  | ApplicationCommandError _ | CheckFailure _ | ApplicationCommandInvokeError _ => true
  | _ => false
  end.

Definition is_CancelledError (e : Exc) : bool :=
  match e with CancelledError => true | _ => false end.

(** [isinstance(e, Exception)]: all but the exceptions that derive from
    [BaseException] directly. *)
Definition is_Exception (e : Exc) : bool :=
  match e with
  | CancelledError | OtherBaseException _ => false
  | _ => true
  end.

(** A hook set with [before_invoke] or [after_invoke]: whether it carries a
    [__self__] (a bound method), and what awaiting it does. *)
Record InvokeHook : Type := MkInvokeHook {
  __self__ : bool;
  hook_outcome : result unit
}.

(** A cog: its [cog_before_invoke] and [cog_after_invoke], [None] when the
    cog does not override them ([_get_overridden_method]). *)
Record Cog : Type := MkCog {
  cog_before_invoke : option (result unit);
  cog_after_invoke : option (result unit)
}.

Record Bot : Type := MkBot {
  bot_can_run : result bool;
  bot_before_invoke : option (result unit);
  bot_after_invoke : option (result unit)
}.

Record ApplicationContext : Type := MkContext { bot : Bot }.

Record ApplicationCommand : Type := MkCommand {
  name : string;
  cog : option Cog;
  checks : list (result bool);
  _before_invoke : option InvokeHook;
  _after_invoke : option InvokeHook;
  _invoke : result unit
}.

(** [discord.utils.async_all] over the awaited predicates: false at the
    first falsy one, an exception where one raises. *)
Fixpoint async_all (gen : list (result bool)) : Coro bool :=
  match gen with
  | [] => ret true
  | elem :: gen' =>
      do b <- await elem;
      if b then async_all gen' else ret false
  end.

Definition can_run (self : ApplicationCommand) (ctx : ApplicationContext)
  : Coro bool :=
  do_ enter CanRun;
  do ok <- await (bot_can_run (bot ctx));
  if negb ok then
    raise (CheckFailure
             ("The global check functions for command " +:+ name self +:+ " failed."))
  else
    let predicates := checks self in
    match predicates with
    | [] => ret true
    | _ => async_all predicates
    end.

(** The local hook is awaited with the instance in front when there is one
    ([__self__], or else the cog), and with the context alone otherwise;
    either way it is awaited. *)
Definition call_local_hook (c : Call) (cog : option Cog) (h : option InvokeHook)
  : Coro unit :=
  match h with
  | Some hook =>
      let instance := __self__ hook || bool_decide (is_Some cog) in
      if instance then do_ enter c; await (hook_outcome hook)
      else do_ enter c; await (hook_outcome hook)
  | None => ret tt
  end.

Definition call_optional_hook (c : Call) (h : option (result unit)) : Coro unit :=
  match h with
  | Some hook => do_ enter c; await hook
  | None => ret tt
  end.

Definition call_before_hooks (self : ApplicationCommand) (ctx : ApplicationContext)
  : Coro unit :=
  do_ enter BeforeHooks;
  do_ call_local_hook (BeforeHook LocalHook) (cog self) (_before_invoke self);
  do_ match cog self with
      | Some cog => call_optional_hook (BeforeHook CogHook) (cog_before_invoke cog)
      | None => ret tt
      end;
  call_optional_hook (BeforeHook BotHook) (bot_before_invoke (bot ctx)).

Definition call_after_hooks (self : ApplicationCommand) (ctx : ApplicationContext)
  : Coro unit :=
  do_ enter AfterHooks;
  do_ call_local_hook (AfterHook LocalHook) (cog self) (_after_invoke self);
  do_ match cog self with
      | Some cog => call_optional_hook (AfterHook CogHook) (cog_after_invoke cog)
      | None => ret tt
      end;
  call_optional_hook (AfterHook BotHook) (bot_after_invoke (bot ctx)).

(** The [except] clauses shared by [wrap_callback] and
    [hooked_wrapped_callback], in their order. *)
Definition on_exception (e : Exc) : Coro unit :=
  if is_ApplicationCommandError e then raise e
  else if is_CancelledError e then ret tt
  else if is_Exception e then raise (ApplicationCommandInvokeError e)
  else raise e.

Definition wrap_callback (coro : Coro unit) : Coro unit :=
  try_except coro on_exception.

Definition hooked_wrapped_callback (command : ApplicationCommand)
    (ctx : ApplicationContext) (coro : Coro unit) : Coro unit :=
  try_finally (try_except coro on_exception) (call_after_hooks command ctx).

Definition prepare (self : ApplicationCommand) (ctx : ApplicationContext)
  : Coro unit :=
  do_ (fun w => (MkWorld (trace w) (Some (name self)), Ok tt));
  do ok <- can_run self ctx;
  if negb ok then
    raise (CheckFailure
             ("The check functions for the command " +:+ name self +:+ " failed"))
  else
    call_before_hooks self ctx.

(** [self._invoke(ctx)]: the callback runs. *)
Definition run_invoke (self : ApplicationCommand) : Coro unit :=
  do_ enter Callback; await (_invoke self).

Definition invoke (self : ApplicationCommand) (ctx : ApplicationContext)
  : Coro unit :=
  do_ prepare self ctx;
  let injected := hooked_wrapped_callback self ctx (run_invoke self) in
  injected.

(** How often [call_after_hooks] has been entered. *)
Definition after_hooks_runs (w : World) : nat :=
  length (filter (fun c => c = AfterHooks) (trace w)).

Definition new_world : World := MkWorld [] None.

(** A coroutine that does not enter [call_after_hooks]. *)
Definition no_after_hooks {A} (m : Coro A) : Prop :=
  forall w, after_hooks_runs (m w).1 = after_hooks_runs w.

End Application.

(** The hooks of an invocation, as lists. *)
Module Hooks.

Import Application.

(** The before-invoke hooks there are for a command and a context, with
    what awaiting each does: the command's own, the cog's, the bot's. *)
Definition before_hooks_in_order (self : ApplicationCommand)
    (ctx : ApplicationContext) : list (Call * result unit) :=
  match _before_invoke self with
  | Some h => [(BeforeHook LocalHook, hook_outcome h)]
  | None => []
  end
  ++ match cog self with
     | Some c =>
         match cog_before_invoke c with
         | Some o => [(BeforeHook CogHook, o)]
         | None => []
         end
     | None => []
     end
  ++ match bot_before_invoke (bot ctx) with
     | Some o => [(BeforeHook BotHook, o)]
     | None => []
     end.

(** The after-invoke hooks, likewise. *)
Definition after_hooks_in_order (self : ApplicationCommand)
    (ctx : ApplicationContext) : list (Call * result unit) :=
  match _after_invoke self with
  | Some h => [(AfterHook LocalHook, hook_outcome h)]
  | None => []
  end
  ++ match cog self with
     | Some c =>
         match cog_after_invoke c with
         | Some o => [(AfterHook CogHook, o)]
         | None => []
         end
     | None => []
     end
  ++ match bot_after_invoke (bot ctx) with
     | Some o => [(AfterHook BotHook, o)]
     | None => []
     end.

(** The hooks of a list that are entered when they are awaited one after
    the other until one raises. *)
Fixpoint until_raise (hs : list (Call * result unit)) : list Call :=
  match hs with
  | [] => []
  | (c, Ok _) :: hs' => c :: until_raise hs'
  | (c, Raise _) :: _ => [c]
  end.

(** The first error among the outcomes of a list of hooks, if any. *)
Fixpoint first_error (hs : list (Call * result unit)) : result unit :=
  match hs with
  | [] => Ok tt
  | (_, Ok _) :: hs' => first_error hs'
  | (_, Raise e) :: _ => Raise e
  end.

End Hooks.

(** ** Error dispatch ([ApplicationCommand.dispatch_error]) *)

Module ErrorDispatch.

(** What [dispatch_error] calls: the command's own handler (with the cog
    in front, or without), the handler of the cog, and the event it has the
    bot dispatch. *)
Inductive ErrorCall : Type :=
  | OnError (with_cog : bool)
  | CogCommandError
  | BotDispatch (event_name : string).

#[global] Instance ErrorCall_eq_dec : EqDecision ErrorCall.
Proof. solve_decision. Defined.

(** The state [dispatch_error] works on: the attribute
    [ctx.command_failed] and the calls made so far. *)
Record ErrorWorld : Type := MkErrorWorld {
  command_failed : bool;
  error_calls : list ErrorCall
}.

Definition Handling (A : Type) : Type := ErrorWorld -> ErrorWorld * result A.

Definition ret {A} (a : A) : Handling A := fun s => (s, Ok a).

Definition bind {A B} (m : Handling A) (k : A -> Handling B) : Handling B :=
  fun s =>
    match m s with
    | (s1, Ok a) => k a s1
    | (s1, Raise e) => (s1, Raise e)
    end.

Notation "'do_' m ; k" := (bind m (fun _ => k))
  (at level 10, m at level 100, k at level 200).

Definition call (c : ErrorCall) : Handling unit :=
  fun s => (MkErrorWorld (command_failed s) (error_calls s ++ [c]), Ok tt).

Definition try_finally {A} (body : Handling A) (fin : Handling unit) : Handling A :=
  fun s =>
    let '(s1, r) := body s in
    match fin s1 with
    | (s2, Ok _) => (s2, r)
    | (s2, Raise e) => (s2, Raise e)
    end.

(** What [wrap_callback(coro)] comes to for a handler known by its
    outcome: the clauses of [wrap_callback] decide. *)
Definition wrapped (coro : result unit) : result unit :=
  (Application.wrap_callback (Application.await coro) Application.new_world).2.

(** Awaiting [wrap_callback(coro)(...)]. *)
Definition await_wrapped (coro : result unit) : Handling unit :=
  fun s => (s, wrapped coro).

(** [dispatch_error(self, ctx, error)]. [on_error] is the attribute
    [self.on_error], [None] when the command has none ([AttributeError]);
    [cog_command_error] is what [_get_overridden_method] gives for the
    cog's [cog_command_error], [None] when the cog does not override it. *)
Definition dispatch_error (self : Application.ApplicationCommand)
    (on_error cog_command_error : option (result unit)) : Handling unit :=
  do_ (fun s => (MkErrorWorld true (error_calls s), Ok tt));
  let cog := Application.cog self in
  do_ match on_error with
      | None => ret tt
      | Some coro =>
          match cog with
          | Some _ => do_ call (OnError true); await_wrapped coro
          | None => do_ call (OnError false); await_wrapped coro
          end
      end;
  try_finally
    (match cog with
     | Some _ =>
         match cog_command_error with
         | Some local => do_ call CogCommandError; await_wrapped local
         | None => ret tt
         end
     | None => ret tt
     end)
    (call (BotDispatch "application_command_error")).

(** How often the bot was made to dispatch the error event. *)
Definition dispatches (s : ErrorWorld) : nat :=
  length (filter (fun c => c = BotDispatch "application_command_error")
            (error_calls s)).

End ErrorDispatch.

(** ** Handler registration ([error], [before_invoke], [after_invoke]) *)

Module Decorators.

(** The attributes of a command that the decorators set. [on_error] is
    absent ([None]) until [error] sets it; [__init__] sets the two hooks to
    [None]. *)
Record Attrs : Type := MkAttrs {
  on_error : option Hook;
  _before_invoke : option Hook;
  _after_invoke : option Hook
}.

Definition new_attrs : Attrs := MkAttrs None None None.

Definition error (coro : Hook) (self : Attrs) : Attrs * result Hook :=
  if negb (iscoroutinefunction coro) then
    (self, Raise (TypeError "The error handler must be a coroutine."))
  else
    (MkAttrs (Some coro) (_before_invoke self) (_after_invoke self), Ok coro).

Definition has_error_handler (self : Attrs) : bool :=
  bool_decide (is_Some (on_error self)).

Definition before_invoke (coro : Hook) (self : Attrs) : Attrs * result Hook :=
  if negb (iscoroutinefunction coro) then
    (self, Raise (TypeError "The pre-invoke hook must be a coroutine."))
  else
    (MkAttrs (on_error self) (Some coro) (_after_invoke self), Ok coro).

Definition after_invoke (coro : Hook) (self : Attrs) : Attrs * result Hook :=
  if negb (iscoroutinefunction coro) then
    (self, Raise (TypeError "The post-invoke hook must be a coroutine."))
  else
    (MkAttrs (on_error self) (_before_invoke self) (Some coro), Ok coro).

(** A use of one of the three decorators. *)
Inductive Decorator : Type := UseError | UseBeforeInvoke | UseAfterInvoke.

Definition decorate (d : Decorator) (coro : Hook) (self : Attrs)
  : Attrs * result Hook :=
  match d with
  | UseError => error coro self
  | UseBeforeInvoke => before_invoke coro self
  | UseAfterInvoke => after_invoke coro self
  end.

(** A series of decorator uses on one command, each on the state the one
    before left, whether it returned or raised. *)
Fixpoint decorate_all (uses : list (Decorator * Hook)) (self : Attrs) : Attrs :=
  match uses with
  | [] => self
  | (d, coro) :: uses' => decorate_all uses' (decorate d coro self).1
  end.

(** The coroutine functions among the uses of [error]. *)
Definition error_handlers (uses : list (Decorator * Hook)) : list Hook :=
  omap (fun '(d, coro) =>
          match d with
          | UseError => if iscoroutinefunction coro then Some coro else None
          | _ => None
          end) uses.

End Decorators.

(** ** Qualified names ([full_parent_name], [qualified_name]) *)

Module Names.

(** What the attribute [parent] of a command leads to: [None], an object
    without a [name], or an object with a [name] and a [parent] of its
    own. *)
Inductive Parent : Type :=
  | NoParent
  | Unnamed
  | Named (name : string) (parent : Parent).

(** The list [entries] that the loop of [full_parent_name] builds: the
    names met on the way up, nearest first. The loop ends at [None] and at
    the first object without a [name]. *)
Fixpoint entries (parent : Parent) : list string :=
  match parent with
  | Named name parent' => name :: entries parent'
  | NoParent | Unnamed => []
  end.

Definition full_parent_name (parent : Parent) : string :=
  String.concat " " (reverse (entries parent)).

(** [if parent:] on a string. *)
Definition truthy (s : string) : bool :=
  negb (String.eqb s "").

Definition qualified_name (name : string) (parent : Parent) : string :=
  let parent := full_parent_name parent in
  if truthy parent then parent +:+ " " +:+ name else name.

End Names.

(** ** Copies of a command ([copy], [_update_copy]) *)

Module Copying.

(** A keyword argument: a list of checks (each known by a number), or
    something else. *)
Inductive KwVal : Type :=
  | KwChecks (l : list nat)
  | KwOther (v : string).

#[global] Instance KwVal_eq_dec : EqDecision KwVal.
Proof. solve_decision. Defined.

Abbreviation Kwargs := (gmap string KwVal).

(** The attribute [__commands_checks__] of the callback: the list object
    it holds, or [None] when the function has no such attribute. It is the
    one object here that is changed in place. *)
Abbreviation CallbackChecks := (option (list nat)).

(** The attribute [checks] of a command: the list object of the callback
    itself, or a value of the command's own. *)
Inductive ChecksAttr : Type :=
  | OfCallback
  | Own (v : KwVal).

(** The attributes of a [SlashCommand] that copying reads and writes. *)
Record SlashCommand : Type := MkSlashCommand {
  __original_kwargs__ : Kwargs;
  checks : ChecksAttr;
  _before_invoke : option Hook;
  _after_invoke : option Hook;
  on_error : option Hook
}.

(** What [command.checks] reads as. *)
Definition checks_value (callback_checks : CallbackChecks) (a : ChecksAttr) : KwVal :=
  match a with
  | OfCallback => KwChecks (default [] callback_checks)
  | Own v => v
  end.

(** [d.update(other)]: the keys of [other] win. *)
Definition dict_update (d other : Kwargs) : Kwargs := other ∪ d.

Section Construction.

(** The first part of [__init__], up to the parsing of the options: the
    test of the callback, [validate_chat_input_name],
    [validate_chat_input_description], [_parse_options]. The helpers are
    not among the sources; all that matters here is whether this part
    raises. *)
Variable validate : Kwargs -> result unit.

(** [SlashCommand(callback, **kwargs)]: [__new__] keeps a copy of the
    keyword arguments; [__init__] takes the checks from the callback,
    reversing that list in place, or else from the keyword arguments, and
    sets both hooks to [None]. *)
Definition new (kwargs : Kwargs) (callback_checks : CallbackChecks)
  : CallbackChecks * result SlashCommand :=
  match validate kwargs with
  | Raise e => (callback_checks, Raise e)
  | Ok _ =>
      match callback_checks with
      | Some l =>
          (Some (reverse l), Ok (MkSlashCommand kwargs OfCallback None None None))
      | None =>
          (None,
           Ok (MkSlashCommand kwargs
                 (Own (default (KwChecks []) (kwargs !! "checks")))
                 None None None))
      end
  end.

Definition _ensure_assignment_on_copy (self other : SlashCommand)
    (callback_checks : CallbackChecks) : result SlashCommand :=
  let before := _before_invoke self in
  let after := _after_invoke self in
  let mine := checks_value callback_checks (checks self) in
  let theirs := checks_value callback_checks (checks other) in
  let handler :=
    match on_error self with
    | Some h => Some h
    | None => on_error other
    end in
  if bool_decide (mine <> theirs) then
    match mine with
    | KwChecks l =>
        Ok (MkSlashCommand (__original_kwargs__ other) (Own (KwChecks l))
              before after handler)
    | KwOther _ => Raise (OtherException "AttributeError")
    end
  else
    Ok (MkSlashCommand (__original_kwargs__ other) (checks other)
          before after handler).

Definition copy (self : SlashCommand) (callback_checks : CallbackChecks)
  : CallbackChecks * result SlashCommand :=
  match new (__original_kwargs__ self) callback_checks with
  | (callback_checks', Ok ret) =>
      (callback_checks', _ensure_assignment_on_copy self ret callback_checks')
  | (callback_checks', Raise e) => (callback_checks', Raise e)
  end.

Definition _update_copy (self : SlashCommand) (kwargs : Kwargs)
    (callback_checks : CallbackChecks) : CallbackChecks * result SlashCommand :=
  if bool_decide (kwargs <> ∅) then
    let kw := dict_update kwargs (__original_kwargs__ self) in
    match new kw callback_checks with
    | (callback_checks', Ok copy) =>
        (callback_checks', _ensure_assignment_on_copy self copy callback_checks')
    | (callback_checks', Raise e) => (callback_checks', Raise e)
    end
  else copy self callback_checks.

End Construction.

End Copying.

(** A bot with a global after-invoke hook, and commands that pass their
    checks and whose callback raises, is cancelled, or returns. *)
Definition a_bot : Application.Bot :=
  Application.MkBot (Ok true) None (Some (Ok tt)).

Definition a_context : Application.ApplicationContext :=
  Application.MkContext a_bot.

Definition command_with (callback : result unit) : Application.ApplicationCommand :=
  Application.MkCommand "play" None [Ok true] None
    (Some (Application.MkInvokeHook false (Ok tt))) callback.

(** A command whose own after-invoke hook raises, and a command with a
    check that is false followed by a check that would raise. *)
Definition command_failing_after : Application.ApplicationCommand :=
  Application.MkCommand "play" None [Ok true] None
    (Some (Application.MkInvokeHook false (Raise (OtherException "IOError"))))
    (Raise (OtherException "ValueError")).

Definition command_failing_check : Application.ApplicationCommand :=
  Application.MkCommand "play" None
    [Ok true; Ok false; Raise (OtherException "KeyError")]
    (Some (Application.MkInvokeHook false (Ok tt))) None (Ok tt).

(** * Properties *)

(** ** Class objects *)

(** Induction on a class together with its base classes. *)
Lemma PyClass_bases_ind (P : PyClass -> Prop) :
  (forall i n bs, Forall P bs -> P (Class i n bs)) -> forall c, P c.
Proof.
  intros step. fix ind 1. intros [i n bs]. apply step.
  induction bs as [|b bs IHbs]; constructor; [apply ind | exact IHbs].
Qed.

Lemma class_eqb_eq (c d : PyClass) : class_eqb c d = true <-> c = d.
Proof.
  revert d. induction c as [i n bs IH] using PyClass_bases_ind.
  intros [j m ds]. simpl.
  rewrite !andb_true_iff, Nat.eqb_eq, String.eqb_eq.
  match goal with |- _ /\ ?f bs ds = true <-> _ =>
    assert (Hall : forall ds', f bs ds' = true <-> bs = ds') end.
  { clear ds. induction IH as [|x xs Hx _ IHxs]; intros [|y ys]; try easy.
    rewrite andb_true_iff, Hx, IHxs. split.
    - intros [-> ->]. reflexivity.
    - intros [= -> ->]. split; reflexivity. }
  rewrite Hall. split.
  - intros [[-> ->] ->]. reflexivity.
  - intros [= -> -> ->]. repeat split; reflexivity.
Qed.

Lemma class_in_elem_of (c : PyClass) (cs : list PyClass) :
  class_in c cs = true <-> c ∈ cs.
Proof.
  unfold class_in. rewrite existsb_exists. split.
  - intros (d & Hd & Heq). apply class_eqb_eq in Heq. subst d.
    by apply list_elem_of_In.
  - intros Hc. exists c. split; [by apply list_elem_of_In | by apply class_eqb_eq].
Qed.

Lemma class_in_false (c : PyClass) (cs : list PyClass) :
  c ∉ cs -> class_in c cs = false.
Proof.
  intros Hc. destruct (class_in c cs) eqn:E; [|done].
  by apply class_in_elem_of in E.
Qed.

(** ** The loop of [add_event_hook] *)

Lemma hook_test (h : Hook) :
  negb (callable h) || negb (iscoroutinefunction h) = negb (is_async_callable h).
Proof. unfold is_async_callable. by destruct (callable h), (iscoroutinefunction h). Qed.

Lemma register_hooks_cons_bad (h : Hook) (hooks l : list Hook) :
  is_async_callable h = false ->
  register_hooks (h :: hooks) l = (l, Raise hook_type_error).
Proof. intros Hh. simpl. rewrite hook_test, Hh. reflexivity. Qed.

Lemma register_hooks_cons_old (h : Hook) (hooks l : list Hook) :
  is_async_callable h = true -> h ∈ l ->
  register_hooks (h :: hooks) l = register_hooks hooks l.
Proof.
  intros Hh Hin. simpl. rewrite hook_test, Hh. simpl.
  by rewrite bool_decide_eq_true_2.
Qed.

Lemma register_hooks_cons_new (h : Hook) (hooks l : list Hook) :
  is_async_callable h = true -> h ∉ l ->
  register_hooks (h :: hooks) l = register_hooks hooks (l ++ [h]).
Proof.
  intros Hh Hin. simpl. rewrite hook_test, Hh. simpl.
  by rewrite bool_decide_eq_false_2.
Qed.

(** The three ways one round of the loop can go. *)
Ltac round h l :=
  destruct (is_async_callable h) eqn:?;
  [ destruct (decide (h ∈ l));
    [ rewrite register_hooks_cons_old by done
    | rewrite register_hooks_cons_new by done ]
  | rewrite register_hooks_cons_bad by done ].

(** The loop only appends, and what it appends passed the test, came from
    the arguments and was not in the list before. *)
Lemma register_hooks_appends (hooks l : list Hook) :
  exists added,
    (register_hooks hooks l).1 = l ++ added
    /\ Forall (fun h => is_async_callable h = true /\ h ∈ hooks /\ h ∉ l) added
    /\ NoDup added.
Proof.
  revert l. induction hooks as [|h hooks IH]; intros l.
  - exists []. simpl. rewrite app_nil_r. repeat split; constructor.
  - round h l.
    + destruct (IH l) as (added & Heq & Hall & Hnd).
      exists added. repeat split; [done| |done].
      eapply Forall_impl; [exact Hall|]. simpl. intros x (? & ? & ?).
      repeat split; [done| |done]. by right.
    + destruct (IH (l ++ [h])) as (added & Heq & Hall & Hnd).
      exists (h :: added). rewrite Heq, <- app_assoc. simpl.
      repeat split; [| ].
      * constructor; [repeat split; [done| by left |done]|].
        eapply Forall_impl; [exact Hall|]. simpl. intros x (? & ? & Hx).
        repeat split; [done| by right |]. intros ?. apply Hx. set_solver.
      * constructor; [|done]. intros Hin.
        apply (proj1 (Forall_forall _ _) Hall h) in Hin.
        apply Hin, elem_of_app. right. by apply list_elem_of_singleton.
    + exists []. simpl. rewrite app_nil_r. repeat split; constructor.
Qed.

Lemma register_hooks_keeps (hooks l : list Hook) (h : Hook) :
  h ∈ l -> h ∈ (register_hooks hooks l).1.
Proof.
  intros Hin. destruct (register_hooks_appends hooks l) as (added & -> & _).
  set_solver.
Qed.

Lemma register_hooks_NoDup (hooks l : list Hook) :
  NoDup l -> NoDup (register_hooks hooks l).1.
Proof.
  intros Hl. destruct (register_hooks_appends hooks l) as (added & -> & Hall & Hnd).
  apply NoDup_app. repeat split; [done| |done].
  intros x Hx Hx'. apply (proj1 (Forall_forall _ _) Hall x) in Hx'.
  by apply Hx'.
Qed.

(** The outcome of the loop: it raises exactly when some argument fails
    the test. *)
Lemma register_hooks_outcome (hooks l : list Hook) :
  (register_hooks hooks l).2 =
    if forallb is_async_callable hooks then Ok tt else Raise hook_type_error.
Proof.
  revert l. induction hooks as [|h hooks IH]; intros l; [done|].
  cbn [forallb]. round h l; simpl; by rewrite ?IH.
Qed.

(** When all arguments pass the test, all of them end up in the list. *)
Lemma register_hooks_all (hooks l : list Hook) (h : Hook) :
  forallb is_async_callable hooks = true -> h ∈ hooks ->
  h ∈ (register_hooks hooks l).1.
Proof.
  revert l. induction hooks as [|h' hooks IH]; intros l Hall Hin.
  { by apply elem_of_nil in Hin. }
  simpl in Hall. apply andb_true_iff in Hall as [Hh' Hall].
  apply elem_of_cons in Hin.
  destruct (decide (h' ∈ l)).
  - rewrite register_hooks_cons_old by done.
    destruct Hin as [->|Hin]; [by apply register_hooks_keeps | by apply IH].
  - rewrite register_hooks_cons_new by done.
    destruct Hin as [->|Hin]; [apply register_hooks_keeps; set_solver | by apply IH].
Qed.

(** The arguments before the first one that fails the test are handled as
    if they were the whole call; then the loop raises. *)
Lemma register_hooks_until_bad (pre post l : list Hook) (bad : Hook) :
  forallb is_async_callable pre = true -> is_async_callable bad = false ->
  register_hooks (pre ++ bad :: post) l =
    ((register_hooks pre l).1, Raise hook_type_error).
Proof.
  revert l. induction pre as [|h pre IH]; intros l Hpre Hbad.
  { rewrite app_nil_l. by rewrite register_hooks_cons_bad. }
  simpl in Hpre. apply andb_true_iff in Hpre as [Hh Hpre].
  rewrite <- app_comm_cons.
  destruct (decide (h ∈ l)).
  - rewrite !register_hooks_cons_old by done. by apply IH.
  - rewrite !register_hooks_cons_new by done. by apply IH.
Qed.

(** Running the loop again, on a list that holds all that the first run
    left, changes nothing and ends the same way. *)
Lemma register_hooks_again (hooks l l' : list Hook) :
  (forall h, h ∈ (register_hooks hooks l).1 -> h ∈ l') ->
  register_hooks hooks l' = (l', (register_hooks hooks l).2).
Proof.
  revert l l'. induction hooks as [|h hooks IH]; intros l l' Hsub; [done|].
  revert Hsub. round h l; intros Hsub.
  - rewrite register_hooks_cons_old; [by eapply IH|done|].
    apply Hsub. by apply register_hooks_keeps.
  - rewrite register_hooks_cons_old; [by eapply IH|done|].
    apply Hsub. apply register_hooks_keeps. set_solver.
  - by rewrite register_hooks_cons_bad.
Qed.

(** ** The registry *)

Lemma event_hooks_of_insert (reg : Registry) (k k' : string) (l : list Hook) :
  event_hooks_of (<[k := l]> reg) k' = if decide (k = k') then l else event_hooks_of reg k'.
Proof.
  unfold event_hooks_of. destruct (decide (k = k')) as [->|Hne].
  - by rewrite lookup_insert_eq.
  - by rewrite lookup_insert_ne.
Qed.

Lemma add_event_hook_rejected (hooks : list Hook) (event : option PyClass)
    (reg : Registry) :
  event_accepted event = false ->
  add_event_hook hooks event reg = (reg, Raise event_type_error).
Proof.
  unfold add_event_hook, event_accepted. destruct event as [e|]; [|done].
  by intros ->.
Qed.

Lemma add_event_hook_accepted (hooks : list Hook) (event : option PyClass)
    (reg : Registry) :
  event_accepted event = true ->
  add_event_hook hooks event reg =
    (<[event_name_of event :=
         (register_hooks hooks (event_hooks_of reg (event_name_of event))).1]> reg,
     (register_hooks hooks (event_hooks_of reg (event_name_of event))).2).
Proof.
  unfold add_event_hook, event_accepted, event_name_of.
  destruct event as [e|].
  - intros ->. simpl. by destruct (register_hooks _ _).
  - intros _. by destruct (register_hooks _ _).
Qed.

Lemma add_event_hook_appends (hooks : list Hook) (event : option PyClass)
    (reg : Registry) (key : string) :
  exists added,
    event_hooks_of (add_event_hook hooks event reg).1 key
      = event_hooks_of reg key ++ added
    /\ Forall (fun h => is_async_callable h = true /\ h ∈ hooks) added.
Proof.
  destruct (event_accepted event) eqn:Hev.
  - rewrite add_event_hook_accepted by done. simpl.
    rewrite event_hooks_of_insert. case_decide as Hkey.
    + subst key.
      destruct (register_hooks_appends hooks
                  (event_hooks_of reg (event_name_of event)))
        as (added & -> & Hall & _).
      exists added. split; [done|].
      eapply Forall_impl; [exact Hall|]. simpl. tauto.
    + exists []. by rewrite app_nil_r.
  - rewrite add_event_hook_rejected by done.
    exists []. by rewrite app_nil_r.
Qed.

Lemma add_event_hook_again (hooks : list Hook) (event : option PyClass)
    (reg : Registry) :
  add_event_hook hooks event (add_event_hook hooks event reg).1
    = add_event_hook hooks event reg.
Proof.
  destruct (event_accepted event) eqn:Hev.
  - rewrite (add_event_hook_accepted hooks event reg) by done. simpl.
    rewrite add_event_hook_accepted by done.
    rewrite event_hooks_of_insert, decide_True by done.
    rewrite (register_hooks_again hooks (event_hooks_of reg (event_name_of event)))
      by done.
    simpl. by rewrite insert_insert_eq.
  - by rewrite !add_event_hook_rejected.
Qed.

(** ** Properties of [add_event_hook] *)

(** C4. A hook argument that is not callable, or not a coroutine function,
    makes [add_event_hook] raise [TypeError], whatever the other arguments
    are, and the call does not add that hook: under every key the list
    after the call is the list before it followed by hooks other than this
    one. *)
Theorem add_event_hook_bad_hook (hooks : list Hook) (event : option PyClass)
    (reg : Registry) (h : Hook) :
  h ∈ hooks ->
  callable h = false \/ iscoroutinefunction h = false ->
  (exists msg, (add_event_hook hooks event reg).2 = Raise (TypeError msg))
  /\ forall key, exists added,
       event_hooks_of (add_event_hook hooks event reg).1 key
         = event_hooks_of reg key ++ added
       /\ h ∉ added.
Proof.
  intros Hin Hbad.
  assert (Hh : is_async_callable h = false).
  { unfold is_async_callable. destruct Hbad as [-> | ->]; [done|].
    by rewrite andb_false_r. }
  split.
  - destruct (event_accepted event) eqn:Hev.
    + rewrite add_event_hook_accepted by done. simpl.
      rewrite register_hooks_outcome.
      destruct (forallb is_async_callable hooks) eqn:Hall; [|by eexists].
      rewrite forallb_forall in Hall.
      apply list_elem_of_In, Hall in Hin. congruence.
    + rewrite add_event_hook_rejected by done. by eexists.
  - intros key.
    destruct (add_event_hook_appends hooks event reg key) as (added & Heq & Hall).
    exists added. split; [done|]. intros Hadded.
    apply (proj1 (Forall_forall _ _) Hall h) in Hadded. destruct Hadded. congruence.
Qed.

Lemma add_event_hook_bad_hook_witness :
  (exists msg,
     (add_event_hook [on_track_end; plain_function] (Some TrackEndEvent) ∅).2
       = Raise (TypeError msg))
  /\ forall key, exists added,
       event_hooks_of
         (add_event_hook [on_track_end; plain_function] (Some TrackEndEvent) ∅).1 key
         = event_hooks_of ∅ key ++ added
       /\ plain_function ∉ added.
Proof.
  apply (add_event_hook_bad_hook [on_track_end; plain_function]
           (Some TrackEndEvent) ∅ plain_function).
  - apply elem_of_cons. right. apply elem_of_cons. by left.
  - right. reflexivity.
Defined.

(** C5. Registering a handler a second time for the same key, a specific
    event type or the generic key, leaves the registry exactly as the first
    registration left it. *)
Theorem add_event_hook_duplicate (h : Hook) (event : option PyClass)
    (reg : Registry) :
  (add_event_hook [h] event (add_event_hook [h] event reg).1).1
    = (add_event_hook [h] event reg).1.
Proof. by rewrite add_event_hook_again. Qed.

(** C8. A class that does not have [Event] among its immediate base
    classes is refused as the event argument: the call raises [TypeError]
    and the registry is what it was. *)
Theorem add_event_hook_event_check (E : PyClass) (hooks : list Hook)
    (reg : Registry) :
  Event ∉ __bases__ E ->
  add_event_hook hooks (Some E) reg = (reg, Raise event_type_error).
Proof.
  intros HE. apply add_event_hook_rejected. simpl. by apply class_in_false.
Qed.

Lemma Event_not_its_own_base : Event ∉ __bases__ Event.
Proof.
  intros H. apply class_in_elem_of in H. vm_compute in H. discriminate.
Defined.

Lemma add_event_hook_event_check_witness :
  add_event_hook [on_track_end] (Some Event) ∅ = (∅, Raise event_type_error).
Proof.
  apply (add_event_hook_event_check Event [on_track_end] ∅).
  exact Event_not_its_own_base.
Defined.

(** [Event] itself, an indirect descendant of [Event], and a class
    unrelated to [Event] are all refused. *)
Lemma add_event_hook_refused_classes (hooks : list Hook) (reg : Registry) :
  add_event_hook hooks (Some Event) reg = (reg, Raise event_type_error)
  /\ add_event_hook hooks (Some CustomTrackEndEvent) reg
       = (reg, Raise event_type_error)
  /\ add_event_hook hooks (Some object) reg = (reg, Raise event_type_error).
Proof. repeat split; by apply add_event_hook_rejected. Qed.

(** What is accepted: [None], and the classes with [Event] among their
    immediate bases; with hooks that all pass the test, the call returns
    and every hook is in the list of the key. *)
Lemma add_event_hook_accepts (hooks : list Hook) (event : option PyClass)
    (reg : Registry) :
  event = None \/ (exists E, event = Some E /\ Event ∈ __bases__ E) ->
  forallb is_async_callable hooks = true ->
  (add_event_hook hooks event reg).2 = Ok tt
  /\ forall h, h ∈ hooks ->
       h ∈ event_hooks_of (add_event_hook hooks event reg).1 (event_name_of event).
Proof.
  intros Hev Hall.
  assert (Hacc : event_accepted event = true).
  { destruct Hev as [-> | (E & -> & HE)]; [done|]. by apply class_in_elem_of. }
  rewrite add_event_hook_accepted by done. simpl. split.
  - by rewrite register_hooks_outcome, Hall.
  - intros h Hh. rewrite event_hooks_of_insert, decide_True by done.
    by apply register_hooks_all.
Qed.

(** C9, as stated, at a call whose event argument is refused: the first
    hook passes the test, the second does not, and the first hook is not
    registered, since the call raises before its loop. *)
Lemma add_event_hook_prefix_refused_event :
  let call := add_event_hook [on_track_end; plain_function] (Some Event) ∅ in
  is_async_callable on_track_end = true
  /\ is_async_callable plain_function = false
  /\ call.2 = Raise event_type_error
  /\ on_track_end ∉ event_hooks_of call.1 (event_name_of (Some Event)).
Proof.
  repeat split. vm_compute. intros H. by apply elem_of_nil in H.
Qed.

(** C9, amended. In a call whose event argument is accepted, the hooks in
    front of the first argument that fails the test are registered although
    the call raises [TypeError]: they are in the list of the key, which is
    the list a call with these hooks alone would have left. *)
Theorem add_event_hook_not_atomic (pre post : list Hook) (bad : Hook)
    (event : option PyClass) (reg : Registry) :
  event_accepted event = true ->
  forallb is_async_callable pre = true ->
  is_async_callable bad = false ->
  let call := add_event_hook (pre ++ bad :: post) event reg in
  call.2 = Raise hook_type_error
  /\ call.1 = (add_event_hook pre event reg).1
  /\ forall h, h ∈ pre -> h ∈ event_hooks_of call.1 (event_name_of event).
Proof.
  intros Hev Hpre Hbad. simpl.
  rewrite !add_event_hook_accepted by done. simpl.
  rewrite register_hooks_until_bad by done. simpl.
  repeat split. intros h Hh.
  rewrite event_hooks_of_insert, decide_True by done.
  by apply register_hooks_all.
Qed.

Lemma add_event_hook_not_atomic_witness :
  let call :=
    add_event_hook ([on_track_end; on_any_event] ++ plain_function :: [not_a_function])
      (Some TrackEndEvent) ∅ in
  call.2 = Raise hook_type_error
  /\ call.1 = (add_event_hook [on_track_end; on_any_event] (Some TrackEndEvent) ∅).1
  /\ forall h, h ∈ [on_track_end; on_any_event] ->
       h ∈ event_hooks_of call.1 (event_name_of (Some TrackEndEvent)).
Proof.
  apply (add_event_hook_not_atomic [on_track_end; on_any_event] [not_a_function]
           plain_function (Some TrackEndEvent) ∅); reflexivity.
Defined.

(** ** The event bus *)

Lemma deliver_all (run : Behaviour) (event : PyEvent) (handlers : list Hook)
    (log : BusLog) :
  deliver run event handlers log =
    (MkBusLog (invoked log ++ handlers) (sink log ++ reported run event handlers),
     Ok tt).
Proof.
  revert log. induction handlers as [|h hs IH]; intros [inv snk].
  - simpl. by rewrite !app_nil_r.
  - simpl. unfold deliver_one. simpl.
    destruct (run h event) as [[]|e]; rewrite IH; simpl;
      by rewrite <- ?app_assoc.
Qed.

Lemma reported_elem (run : Behaviour) (event : PyEvent) (handlers : list Hook)
    (h : Hook) (e : Exc) :
  h ∈ handlers -> run h event = Raise e -> (h, e) ∈ reported run event handlers.
Proof.
  intros Hin Hrun. unfold reported. apply list_elem_of_In, in_flat_map.
  exists h. split; [by apply list_elem_of_In|]. rewrite Hrun. by left.
Qed.

(** A list without duplicates holds each of its elements once. *)
Lemma count_occ_NoDup (l : list Hook) (h : Hook) :
  NoDup l ->
  count_occ Hook_eq_dec l h = if bool_decide (h ∈ l) then 1 else 0.
Proof.
  induction 1 as [|x l Hx Hl IH]; [done|].
  simpl. destruct (Hook_eq_dec x h) as [->|Hne].
  - rewrite IH, bool_decide_eq_false_2 by done.
    by rewrite bool_decide_eq_true_2 by left.
  - rewrite IH. destruct (decide (h ∈ l)).
    + by rewrite !bool_decide_eq_true_2 by (done || by right).
    + rewrite !bool_decide_eq_false_2; [done| |done].
      intros [->|?]%elem_of_cons; done.
Qed.

(** No list of a registry built by [add_event_hook] holds a hook twice,
    and all the hooks it holds are coroutine functions. *)
Lemma registered_lists (reg : Registry) (key : string) :
  registered reg ->
  NoDup (event_hooks_of reg key)
  /\ Forall (fun h => is_async_callable h = true) (event_hooks_of reg key).
Proof.
  intros Hreg. revert key. induction Hreg as [|hooks event reg Hreg IH]; intros key.
  - unfold event_hooks_of. rewrite lookup_empty. simpl. split; constructor.
  - destruct (IH key) as [Hnd Hok].
    destruct (event_accepted event) eqn:Hev.
    + rewrite add_event_hook_accepted by done. simpl.
      rewrite event_hooks_of_insert. case_decide as Hkey; [subst key|done].
      split; [by apply register_hooks_NoDup|].
      destruct (register_hooks_appends hooks
                  (event_hooks_of reg (event_name_of event)))
        as (added & -> & Hall & _).
      apply Forall_app. split; [done|].
      eapply Forall_impl; [exact Hall|]. simpl. tauto.
    + by rewrite add_event_hook_rejected.
Qed.




(** The scenario of the spec, run: the three handlers are invoked, once
    each, and a handler for another event type is not. *)
Example publish_two_and_one :
  let reg := (add_event_hook [plain_function; on_track_end] (Some TrackStartEvent)
                (add_event_hook [MkHook 6 AsyncDef] (Some TrackStartEvent)
                   two_and_one).1).1 in
  invoked (publish quiet reg (MkEvent TrackEndEvent 42) empty_log).1
    = [on_track_end; MkHook 5 AsyncDef; on_any_event].
Proof. vm_compute. reflexivity. Qed.

(** C3. A matching handler that raises does not keep the others from
    being invoked: the handlers invoked are all the matching ones. The
    error goes to the sink, and [publish] returns. *)
Theorem publish_isolates_handler_error (run : Behaviour) (reg : Registry)
    (event : PyEvent) (log : BusLog) (h : Hook) (e : Exc) :
  h ∈ matching_hooks reg event ->
  run h event = Raise e ->
  let out := publish run reg event log in
  out.2 = Ok tt
  /\ invoked out.1 = invoked log ++ matching_hooks reg event
  /\ (h, e) ∈ sink out.1.
Proof.
  intros Hin Hrun. simpl. unfold publish. rewrite deliver_all. simpl.
  repeat split. apply elem_of_app. right. by apply reported_elem.
Qed.

Lemma publish_isolates_handler_error_witness :
  let out :=
    publish failing_first two_and_one (MkEvent TrackEndEvent 42) empty_log in
  out.2 = Ok tt
  /\ invoked out.1
       = invoked empty_log ++ matching_hooks two_and_one (MkEvent TrackEndEvent 42)
  /\ (on_track_end, OtherException "ValueError") ∈ sink out.1.
Proof.
  apply (publish_isolates_handler_error failing_first two_and_one
           (MkEvent TrackEndEvent 42) empty_log on_track_end
           (OtherException "ValueError")).
  - vm_compute. by left.
  - reflexivity.
Defined.

(** ** Transport: the backoff delays *)

Section BackoffPolicy.

Variable p : Backoff.
Hypothesis base_positive : (0 < base_delay p)%Z.
Hypothesis base_below_max : (base_delay p <= max_delay p)%Z.

Local Abbreviation delay_in_range := (delay_in_range p).

(** What one step does to the delay: it waits the current delay and grows
    it, or it resets it on the handshake that connects, or it leaves it. *)
Lemma step_delay (t : Transport) (ev : TransportEvent) :
  ((step p t ev).2 = Some (delay t)
   /\ delay (step p t ev).1 = next_delay p (delay t)
   /\ is_success ev = false)
  \/ ((step p t ev).2 = None /\ delay (step p t ev).1 = delay t)
  \/ ((step p t ev).2 = None
      /\ delay (step p t ev).1 = base_delay p
      /\ ev = HandshakeSucceeded
      /\ connectionState t = Connecting
      /\ connectionState (step p t ev).1 = Connected).
Proof.
  unfold step. destruct (connectionState t) eqn:Hst, ev; simpl; auto 10.
Qed.

Lemma next_delay_grows (d : Z) :
  (base_delay p <= d <= max_delay p)%Z ->
  (d <= next_delay p d)%Z /\ (base_delay p <= next_delay p d <= max_delay p)%Z.
Proof. unfold next_delay. lia. Qed.

Lemma step_in_range (t : Transport) (ev : TransportEvent) :
  delay_in_range t -> delay_in_range (step p t ev).1.
Proof.
  unfold delay_in_range. intros Ht.
  destruct (step_delay t ev) as [(_ & -> & _) | [(_ & ->) | (_ & -> & _)]];
    [by apply next_delay_grows | done | lia].
Qed.

Lemma run_cons (t : Transport) (ev : TransportEvent) (evs : list TransportEvent) :
  run p t (ev :: evs) =
    ((run p (step p t ev).1 evs).1,
     match (step p t ev).2 with
     | Some d => d :: (run p (step p t ev).1 evs).2
     | None => (run p (step p t ev).1 evs).2
     end).
Proof. simpl. destruct (step p t ev), (run p _ evs). reflexivity. Qed.

Lemma run_in_range (t : Transport) (evs : list TransportEvent) :
  delay_in_range t -> delay_in_range (run p t evs).1.
Proof.
  revert t. induction evs as [|ev evs IH]; intros t Ht; [done|].
  rewrite run_cons. simpl. by apply IH, step_in_range.
Qed.

Lemma new_transport_in_range : delay_in_range (new_transport p).
Proof. unfold delay_in_range. simpl. lia. Qed.

(** While no handshake succeeds, the delays waited do not decrease, start
    no lower than the current delay and stay below the ceiling. *)
Lemma failures_sorted (t : Transport) (evs : list TransportEvent) :
  delay_in_range t ->
  forallb (fun ev => negb (is_success ev)) evs = true ->
  StronglySorted Z.le (run p t evs).2
  /\ Forall (fun d => (delay t <= d <= max_delay p)%Z) (run p t evs).2.
Proof.
  revert t. induction evs as [|ev evs IH]; intros t Ht Hevs.
  { simpl. split; constructor. }
  simpl in Hevs. apply andb_true_iff in Hevs as [Hev Hevs].
  rewrite run_cons. simpl.
  destruct (IH (step p t ev).1 (step_in_range t ev Ht) Hevs) as [Hs Hb].
  pose proof (next_delay_grows (delay t) Ht) as [Hgrow _].
  unfold delay_in_range in Ht.
  destruct (step_delay t ev) as [(-> & Hd & _) | [(-> & Hd) | (_ & _ & -> & _)]];
    [| |done]; rewrite Hd in Hb.
  - split.
    + constructor; [done|]. eapply Forall_impl; [exact Hb|]. simpl. lia.
    + constructor; [lia|]. eapply Forall_impl; [exact Hb|]. simpl. lia.
  - by split.
Qed.

(** The first delay waited after a point where the delay is the base
    delay is the base delay. *)
Lemma first_delay_base (t : Transport) (evs : list TransportEvent) (d : Z)
    (ds : list Z) :
  delay t = base_delay p -> (run p t evs).2 = d :: ds -> d = base_delay p.
Proof.
  revert t. induction evs as [|ev evs IH]; intros t Ht; [done|].
  rewrite run_cons. simpl.
  destruct (step_delay t ev) as [(-> & _) | [(-> & Hd) | (-> & Hd & _)]].
  - intros [= <- _]. done.
  - apply IH. congruence.
  - by apply IH.
Qed.

(** C6. From a new transport, after any history: over events among which
    no handshake succeeds, the backoff delays waited are non-decreasing and
    each lies between the base delay and the ceiling; and when a handshake
    succeeds in [Connecting], the transport is [Connected] and the next
    backoff delay it waits, whenever that is, is the base delay. *)
Theorem backoff_monotone_capped_reset (history evs : list TransportEvent) :
  let t := (run p (new_transport p) history).1 in
  (forallb (fun ev => negb (is_success ev)) evs = true ->
     StronglySorted Z.le (run p t evs).2
     /\ Forall (fun d => (base_delay p <= d <= max_delay p)%Z) (run p t evs).2)
  /\ (connectionState t = Connecting ->
      let t' := (step p t HandshakeSucceeded).1 in
      connectionState t' = Connected
      /\ forall evs' d ds, (run p t' evs').2 = d :: ds -> d = base_delay p).
Proof.
  simpl.
  pose proof (run_in_range _ history new_transport_in_range) as Ht.
  split.
  - intros Hevs. destruct (failures_sorted _ evs Ht Hevs) as [Hs Hb].
    split; [done|]. eapply Forall_impl; [exact Hb|]. simpl.
    unfold delay_in_range in Ht. lia.
  - intros Hst. unfold step at 1. rewrite Hst. simpl. split; [done|].
    intros evs' d ds. apply first_delay_base.
    unfold step. by rewrite Hst.
Qed.

End BackoffPolicy.

Lemma backoff_monotone_capped_reset_witness :
  let t := (run one_to_sixty (new_transport one_to_sixty)
              [Connect; HandshakeFailed; BackoffElapsed]).1 in
  (forallb (fun ev => negb (is_success ev))
     [HandshakeFailed; BackoffElapsed; HandshakeFailed] = true ->
     StronglySorted Z.le
       (run one_to_sixty t [HandshakeFailed; BackoffElapsed; HandshakeFailed]).2
     /\ Forall (fun d => (base_delay one_to_sixty <= d <= max_delay one_to_sixty)%Z)
          (run one_to_sixty t [HandshakeFailed; BackoffElapsed; HandshakeFailed]).2)
  /\ (connectionState t = Connecting ->
      let t' := (step one_to_sixty t HandshakeSucceeded).1 in
      connectionState t' = Connected
      /\ forall evs' d ds,
           (run one_to_sixty t' evs').2 = d :: ds -> d = base_delay one_to_sixty).
Proof.
  apply (backoff_monotone_capped_reset one_to_sixty);
    [reflexivity | discriminate].
Defined.

(** Eight failed attempts in a row, then a success, then a loss. *)
Example backoff_delays_doubling :
  (run one_to_sixty (new_transport one_to_sixty)
     ([Connect]
      ++ concat (replicate 8 [HandshakeFailed; BackoffElapsed])
      ++ [HandshakeSucceeded; SocketError; BackoffElapsed; HandshakeFailed])).2
  = [1; 2; 4; 8; 16; 32; 60; 60; 1; 2]%Z.
Proof. reflexivity. Qed.

(** ** Node *)

(** C7. A node whose connection is not [Connected] fails a send with
    [NodeUnavailable] at once and is left as it was; so it does while
    [Reconnecting]. A [Connected] node forwards the command: the send
    returns, and the message for the guild is the last one written to the
    node's transport. *)
Theorem send_checks_connection (guildID : Z) (payload : Message) (n : Node) :
  (connectionState (transport n) <> Connected ->
     send guildID payload n = (n, Raise NodeUnavailable))
  /\ (connectionState (transport n) = Reconnecting ->
        send guildID payload n = (n, Raise NodeUnavailable))
  /\ (connectionState (transport n) = Connected ->
        (send guildID payload n).2 = Ok tt
        /\ outbound (transport (send guildID payload n).1)
             = outbound (transport n)
                 ++ [MkMessage (op payload) guildID (params payload)]
        /\ connectionState (transport (send guildID payload n).1) = Connected
        /\ assignedGuilds (send guildID payload n).1 = assignedGuilds n
        /\ stats (send guildID payload n).1 = stats n).
Proof.
  unfold send. split; [|split].
  - intros Hst. by rewrite bool_decide_eq_true_2.
  - intros Hst. rewrite bool_decide_eq_true_2; [done|]. by rewrite Hst.
  - intros Hst. rewrite bool_decide_eq_false_2 by (by intros []).
    simpl. by repeat split.
Qed.

(** ** NodeManager *)

Section Selection.

Variable penalty_of_stats : NodeStats -> Z.
Variable unknown_load_penalty : Z.

Local Abbreviation penalty := (penalty penalty_of_stats unknown_load_penalty).
Local Abbreviation better := (better penalty_of_stats unknown_load_penalty).
Local Abbreviation scan_nodes := (scan_nodes penalty_of_stats unknown_load_penalty).
Local Abbreviation best_node := (best_node penalty_of_stats unknown_load_penalty).
Local Abbreviation assign := (assign penalty_of_stats unknown_load_penalty).
Local Abbreviation chosen_before :=
  (chosen_before penalty_of_stats unknown_load_penalty).
Local Abbreviation choice_of := (choice_of penalty_of_stats unknown_load_penalty).


Lemma better_true (a b : Node) :
  better a b = true <->
  (penalty a < penalty b)%Z
  \/ (penalty a = penalty b
      /\ size (assignedGuilds a) < size (assignedGuilds b)).
Proof.
  unfold better.
  rewrite orb_true_iff, andb_true_iff, Z.ltb_lt, Z.eqb_eq, Nat.ltb_lt. tauto.
Qed.

Lemma lookup_snoc (seen : list Node) (n : Node) (j : nat) (m : Node) :
  (seen ++ [n]) !! j = Some m ->
  seen !! j = Some m \/ (j = length seen /\ m = n).
Proof.
  intros H. apply lookup_app_Some in H as [H | [Hj H]]; [by left|].
  right. apply list_lookup_singleton_Some in H as [Hz ->]. split; [lia|done].
Qed.

(** One round of the scan keeps the choice. *)
Lemma choice_of_snoc (seen : list Node) (n : Node) (best : option (nat * Node)) :
  choice_of seen best ->
  choice_of (seen ++ [n])
    (if available n then
       match best with
       | None => Some (length seen, n)
       | Some (_, b) => if better n b then Some (length seen, n) else best
       end
     else best).
Proof.
  intros Hbest.
  assert (Hn : (seen ++ [n]) !! length seen = Some n).
  { rewrite lookup_app_r by lia. by rewrite Nat.sub_diag. }
  destruct (available n) eqn:Hav.
  - destruct best as [[i b]|]; simpl in Hbest.
    + destruct Hbest as (Hi & Hb & Hmin).
      pose proof (lookup_lt_Some _ _ _ Hi) as Hlt.
      destruct (better n b) eqn:Hbetter.
      * apply better_true in Hbetter.
        repeat split; [done|done|]. intros j m Hj Hm.
        apply lookup_snoc in Hj as [Hj | [-> ->]].
        -- specialize (Hmin j m Hj Hm). unfold chosen_before in *. lia.
        -- unfold chosen_before. lia.
      * assert (Hnb : ~ ((penalty n < penalty b)%Z
                         \/ (penalty n = penalty b
                             /\ size (assignedGuilds n) < size (assignedGuilds b)))).
        { rewrite <- better_true. by rewrite Hbetter. }
        repeat split; [by apply lookup_app_l_Some|done|]. intros j m Hj Hm.
        apply lookup_snoc in Hj as [Hj | [-> ->]]; [by apply Hmin|].
        unfold chosen_before. lia.
    + repeat split; [done|done|]. intros j m Hj Hm.
      apply lookup_snoc in Hj as [Hj | [-> ->]].
      * specialize (Hbest j m Hj). congruence.
      * unfold chosen_before. lia.
  - destruct best as [[i b]|]; simpl in *.
    + destruct Hbest as (Hi & Hb & Hmin).
      repeat split; [by apply lookup_app_l_Some|done|]. intros j m Hj Hm.
      apply lookup_snoc in Hj as [Hj | [-> ->]]; [by apply Hmin|congruence].
    + intros j m Hj. apply lookup_snoc in Hj as [Hj | [-> ->]]; [by eapply Hbest|done].
Qed.

Lemma scan_nodes_choice (seen nodes : list Node) (best : option (nat * Node)) :
  choice_of seen best ->
  choice_of (seen ++ nodes) (scan_nodes nodes (length seen) best).
Proof.
  revert seen best. induction nodes as [|n nodes IH]; intros seen best Hbest.
  - simpl. by rewrite app_nil_r.
  - simpl. replace (S (length seen)) with (length (seen ++ [n]))
      by (rewrite length_app; simpl; lia).
    rewrite (cons_middle n seen nodes), app_assoc.
    apply IH. by apply choice_of_snoc.
Qed.

Lemma best_node_choice (nodes : list Node) : choice_of nodes (best_node nodes).
Proof. apply (scan_nodes_choice [] nodes None). by intros j m H. Qed.

(** C1. When some node is available, [assign] returns an available node
    that is chosen before every available node: none has a lower penalty,
    none with the same penalty has fewer guilds, and none with the same
    penalty and as many guilds comes earlier in the configuration; the
    guild is added to that node. When no node is available, [assign]
    fails with [NoAvailableNodes] and returns no node. *)
Theorem assign_selects_best (guildID : Z) (nodes : list Node) :
  ((exists n, n ∈ nodes /\ available n = true) ->
     exists i n,
       nodes !! i = Some n
       /\ available n = true
       /\ (forall j m, nodes !! j = Some m -> available m = true ->
             chosen_before i n j m)
       /\ assign guildID nodes
          = (<[i := add_guild guildID n]> nodes, Ok (i, add_guild guildID n)))
  /\ ((forall n, n ∈ nodes -> available n = false) ->
        assign guildID nodes = (nodes, Raise NoAvailableNodes)).
Proof.
  pose proof (best_node_choice nodes) as Hbest. unfold assign.
  destruct (best_node nodes) as [[i n]|]; simpl in Hbest.
  - destruct Hbest as (Hi & Hn & Hmin). split.
    + intros _. by exists i, n.
    + intros Hnone. rewrite (Hnone n) in Hn; [done|].
      by eapply list_elem_of_lookup_2.
  - split; [|done]. intros (n & Hin & Hn).
    apply list_elem_of_lookup in Hin as [j Hj].
    specialize (Hbest j n Hj). congruence.
Qed.

(** The choice is unique: two positions that are each chosen before the
    other are the same position. *)
Lemma chosen_before_antisym (i j : nat) (n m : Node) :
  chosen_before i n j m -> chosen_before j m i n -> i = j.
Proof. unfold chosen_before. lia. Qed.

End Selection.

(** An example cluster: the penalty is the player count, the sentinel for
    a node without telemetry is 1000. Node 0 is not connected; nodes 1
    and 3 tie on penalty and on guilds; node 2 has the same penalty and
    more guilds. The earlier of the tied nodes, node 1, is assigned. *)
Example assign_example :
  let stats_of players := Some (MkNodeStats players 0 0 4 0 0 0 0) in
  let node name state players guilds :=
    MkNode name (MkTransport state 1 []) (stats_of players) guilds in
  let cluster :=
    [ node "a" Reconnecting 0%Z ∅;
      node "b" Connected 3%Z {[ 7%Z ]};
      node "c" Connected 3%Z {[ 8%Z; 9%Z ]};
      node "d" Connected 3%Z {[ 10%Z ]} ] in
  (assign playerCount 1000 11 cluster).2
    = Ok (1, node "b" Connected 3%Z {[ 11%Z; 7%Z ]})
  /\ (assign playerCount 1000 11 (take 1 cluster)).2 = Raise NoAvailableNodes.
Proof. split; vm_compute; reflexivity. Qed.

(** ** Application commands *)

Section Invocation.

Import Application.

Variable self : ApplicationCommand.
Variable ctx : ApplicationContext.

Lemma after_hooks_runs_enter (c : Call) (w : World) :
  after_hooks_runs (enter c w).1 =
    after_hooks_runs w + (if decide (c = AfterHooks) then 1 else 0).
Proof.
  unfold after_hooks_runs, enter. simpl.
  rewrite filter_app, length_app. f_equal.
  rewrite filter_cons, filter_nil. by case_decide.
Qed.

Lemma no_after_hooks_ret {A} (a : A) : no_after_hooks (ret a).
Proof. by intros w. Qed.

Lemma no_after_hooks_raise {A} (e : Exc) : no_after_hooks (@raise A e).
Proof. by intros w. Qed.

Lemma no_after_hooks_await {A} (o : result A) : no_after_hooks (await o).
Proof. by intros w. Qed.

Lemma no_after_hooks_enter (c : Call) : c <> AfterHooks -> no_after_hooks (enter c).
Proof.
  intros Hc w. rewrite after_hooks_runs_enter, decide_False by done. lia.
Qed.

Lemma no_after_hooks_bind {A B} (m : Coro A) (k : A -> Coro B) :
  no_after_hooks m -> (forall a, no_after_hooks (k a)) -> no_after_hooks (bind m k).
Proof.
  intros Hm Hk w. unfold bind. specialize (Hm w).
  destruct (m w) as [w1 [a|e]]; simpl in *; [|done].
  by rewrite Hk.
Qed.

Lemma no_after_hooks_try_except {A} (m : Coro A) (handler : Exc -> Coro A) :
  no_after_hooks m -> (forall e, no_after_hooks (handler e)) ->
  no_after_hooks (try_except m handler).
Proof.
  intros Hm Hh w. unfold try_except. specialize (Hm w).
  destruct (m w) as [w1 [a|e]]; simpl in *; [done|].
  by rewrite Hh.
Qed.

Ltac silent :=
  repeat first
    [ apply no_after_hooks_bind; [|intros ?]
    | apply no_after_hooks_ret
    | apply no_after_hooks_raise
    | apply no_after_hooks_await
    | apply no_after_hooks_enter; discriminate
    | match goal with |- no_after_hooks (if ?b then _ else _) => destruct b end
    | match goal with |- no_after_hooks (match ?x with _ => _ end) => destruct x end ].

Lemma no_after_hooks_local_hook (c : Call) (cg : option Cog) (h : option InvokeHook) :
  c <> AfterHooks -> no_after_hooks (call_local_hook c cg h).
Proof.
  intros Hc. unfold call_local_hook. destruct h as [hook|]; [|silent].
  destruct (__self__ hook || _);
    (apply no_after_hooks_bind; [by apply no_after_hooks_enter | intros ?; silent]).
Qed.

Lemma no_after_hooks_optional_hook (c : Call) (h : option (result unit)) :
  c <> AfterHooks -> no_after_hooks (call_optional_hook c h).
Proof.
  intros Hc. unfold call_optional_hook. destruct h; [|silent].
  apply no_after_hooks_bind; [by apply no_after_hooks_enter | intros ?; silent].
Qed.

Lemma no_after_hooks_async_all (gen : list (result bool)) :
  no_after_hooks (async_all gen).
Proof. induction gen as [|elem gen IH]; simpl; silent. exact IH. Qed.

Lemma no_after_hooks_can_run : no_after_hooks (can_run self ctx).
Proof.
  unfold can_run.
  apply no_after_hooks_bind; [by apply no_after_hooks_enter|intros _].
  apply no_after_hooks_bind; [apply no_after_hooks_await|intros ok].
  destruct (negb ok); [apply no_after_hooks_raise|].
  destruct (checks self) as [|c cs]; [apply no_after_hooks_ret|].
  apply no_after_hooks_async_all.
Qed.

Lemma no_after_hooks_before_hooks : no_after_hooks (call_before_hooks self ctx).
Proof.
  unfold call_before_hooks. silent;
    first [ by apply no_after_hooks_local_hook
          | by apply no_after_hooks_optional_hook ].
Qed.

(** The preparation does not run the after-hooks. *)
Lemma no_after_hooks_prepare : no_after_hooks (prepare self ctx).
Proof.
  unfold prepare. apply no_after_hooks_bind; [by intros w|intros _].
  apply no_after_hooks_bind; [apply no_after_hooks_can_run|intros ok].
  destruct (negb ok); [silent | apply no_after_hooks_before_hooks].
Qed.

(** The callback, wrapped in its [except] clauses, does not either. *)
Lemma no_after_hooks_callback :
  no_after_hooks (try_except (run_invoke self) on_exception).
Proof.
  apply no_after_hooks_try_except.
  - unfold run_invoke. silent.
  - intros e. unfold on_exception. silent.
Qed.

(** [call_after_hooks] is entered once by a call of it. *)
Lemma call_after_hooks_once (w : World) :
  after_hooks_runs (call_after_hooks self ctx w).1 = S (after_hooks_runs w).
Proof.
  unfold call_after_hooks.
  assert (Hrest : forall k : Coro unit, no_after_hooks k ->
            after_hooks_runs ((do_ enter AfterHooks; k) w).1
              = S (after_hooks_runs w)).
  { intros k Hk. unfold bind.
    pose proof (after_hooks_runs_enter AfterHooks w) as Hen.
    rewrite decide_True in Hen by done.
    unfold enter in *. cbn [fst snd] in *. rewrite Hk, Hen. lia. }
  apply Hrest. silent;
    first [ by apply no_after_hooks_local_hook
          | by apply no_after_hooks_optional_hook ].
Qed.

(** C10. When the preparation of an invocation succeeds, the invocation
    enters [call_after_hooks] exactly once, whatever the callback does:
    return, raise an exception of any class, or be cancelled. *)
Theorem invoke_after_hooks_once (w : World) :
  (prepare self ctx w).2 = Ok tt ->
  after_hooks_runs (invoke self ctx w).1 = S (after_hooks_runs w).
Proof.
  intros Hprep. unfold invoke, bind.
  pose proof (no_after_hooks_prepare w) as Hw.
  destruct (prepare self ctx w) as [w1 r]. simpl in Hprep, Hw. subst r.
  unfold hooked_wrapped_callback, try_finally.
  pose proof (no_after_hooks_callback w1) as Hcb.
  destruct (try_except (run_invoke self) on_exception w1) as [w2 r]. simpl in Hcb.
  pose proof (call_after_hooks_once w2) as Hafter.
  destruct (call_after_hooks self ctx w2) as [w3 [[]|e]]; simpl in *; lia.
Qed.

(** When the preparation fails, the after-hooks are not run. *)
Lemma invoke_prepare_failed (w : World) (e : Exc) :
  (prepare self ctx w).2 = Raise e ->
  (invoke self ctx w).2 = Raise e
  /\ after_hooks_runs (invoke self ctx w).1 = after_hooks_runs w.
Proof.
  intros Hprep. unfold invoke, bind.
  pose proof (no_after_hooks_prepare w) as Hw.
  destruct (prepare self ctx w) as [w1 r]. simpl in Hprep, Hw. by subst r.
Qed.

End Invocation.

Lemma invoke_after_hooks_once_witness :
  Application.after_hooks_runs
    (Application.invoke (command_with (Raise (OtherException "ValueError")))
       a_context Application.new_world).1
  = S (Application.after_hooks_runs Application.new_world).
Proof.
  apply (invoke_after_hooks_once (command_with (Raise (OtherException "ValueError")))
           a_context Application.new_world).
  reflexivity.
Defined.

(** The three invocations, run: the coroutines entered, and the outcome. A
    callback that raises surfaces as [ApplicationCommandInvokeError]; a
    cancelled one makes the invocation return. *)
Example invoke_callback_raises :
  Application.invoke (command_with (Raise (OtherException "ValueError")))
    a_context Application.new_world
  = (Application.MkWorld
       [Application.CanRun; Application.BeforeHooks; Application.Callback;
        Application.AfterHooks; Application.AfterHook Application.LocalHook;
        Application.AfterHook Application.BotHook]
       (Some "play"),
     Raise (ApplicationCommandInvokeError (OtherException "ValueError"))).
Proof. reflexivity. Qed.

Example invoke_callback_cancelled :
  Application.invoke (command_with (Raise CancelledError))
    a_context Application.new_world
  = (Application.MkWorld
       [Application.CanRun; Application.BeforeHooks; Application.Callback;
        Application.AfterHooks; Application.AfterHook Application.LocalHook;
        Application.AfterHook Application.BotHook]
       (Some "play"),
     Ok tt).
Proof. reflexivity. Qed.

Example invoke_check_fails :
  Application.invoke
    (Application.MkCommand "play" None [Ok true; Ok false] None
       (Some (Application.MkInvokeHook false (Ok tt))) (Ok tt))
    a_context Application.new_world
  = (Application.MkWorld [Application.CanRun] (Some "play"),
     Raise (CheckFailure "The check functions for the command play failed")).
Proof. reflexivity. Qed.

(** * Further properties *)

(** ** [add_event_hook]: outcome, order and keys *)

(** X1. A call whose event argument passes the check and whose hooks are
    all coroutine functions returns, and the list of the key then holds
    what it held before and the hooks of the call, and nothing else. *)
Theorem add_event_hook_registers_all (hooks : list Hook) (event : option PyClass)
    (reg : Registry) :
  event_accepted event = true ->
  forallb is_async_callable hooks = true ->
  (add_event_hook hooks event reg).2 = Ok tt
  /\ forall h,
       h ∈ event_hooks_of (add_event_hook hooks event reg).1 (event_name_of event)
       <-> h ∈ event_hooks_of reg (event_name_of event) \/ h ∈ hooks.
Proof.
  intros Hev Hall. rewrite add_event_hook_accepted by done. simpl. split.
  - by rewrite register_hooks_outcome, Hall.
  - intros h. rewrite event_hooks_of_insert, decide_True by done. split.
    + destruct (register_hooks_appends hooks
                  (event_hooks_of reg (event_name_of event)))
        as (added & -> & Hadded & _).
      intros [Hold | Hnew]%elem_of_app; [by left|]. right.
      by apply (proj1 (Forall_forall _ _) Hadded h) in Hnew as (_ & ? & _).
    + intros [Hold | Hnew];
        [by apply register_hooks_keeps | by apply register_hooks_all].
Qed.

Lemma add_event_hook_registers_all_witness :
  (add_event_hook [on_track_end; on_any_event] (Some TrackEndEvent) two_and_one).2
  = Ok tt
  /\ forall h,
       h ∈ event_hooks_of
             (add_event_hook [on_track_end; on_any_event] (Some TrackEndEvent)
                two_and_one).1
             (event_name_of (Some TrackEndEvent))
       <-> h ∈ event_hooks_of two_and_one (event_name_of (Some TrackEndEvent))
           \/ h ∈ [on_track_end; on_any_event].
Proof.
  apply (add_event_hook_registers_all [on_track_end; on_any_event]
           (Some TrackEndEvent) two_and_one); reflexivity.
Defined.

(** X2. [add_event_hook] ends in one of three ways, decided by its
    arguments alone: the event check comes first, then the hooks; the call
    returns only when both pass. *)
Theorem add_event_hook_outcome (hooks : list Hook) (event : option PyClass)
    (reg : Registry) :
  (add_event_hook hooks event reg).2 =
    if event_accepted event then
      if forallb is_async_callable hooks then Ok tt else Raise hook_type_error
    else Raise event_type_error.
Proof.
  destruct (event_accepted event) eqn:Hev.
  - rewrite add_event_hook_accepted by done. simpl. apply register_hooks_outcome.
  - by rewrite add_event_hook_rejected.
Qed.

(** X3. A call never puts a hook twice into a list, and never puts in a
    hook that is not a coroutine function: lists that are free of both
    stay so, whether the call returns or raises. *)
Theorem add_event_hook_keeps_lists_clean (hooks : list Hook)
    (event : option PyClass) (reg : Registry) (key : string) :
  NoDup (event_hooks_of reg key) ->
  Forall (fun h => is_async_callable h = true) (event_hooks_of reg key) ->
  NoDup (event_hooks_of (add_event_hook hooks event reg).1 key)
  /\ Forall (fun h => is_async_callable h = true)
       (event_hooks_of (add_event_hook hooks event reg).1 key).
Proof.
  intros Hnd Hok. destruct (event_accepted event) eqn:Hev.
  - rewrite add_event_hook_accepted by done. simpl.
    rewrite event_hooks_of_insert. case_decide as Hkey; [subst key|done].
    split; [by apply register_hooks_NoDup|].
    destruct (register_hooks_appends hooks
                (event_hooks_of reg (event_name_of event)))
      as (added & -> & Hall & _).
    apply Forall_app. split; [done|].
    eapply Forall_impl; [exact Hall|]. simpl. tauto.
  - by rewrite add_event_hook_rejected.
Qed.

Lemma add_event_hook_keeps_lists_clean_witness :
  NoDup (event_hooks_of
           (add_event_hook [on_track_end; on_track_end; plain_function]
              (Some TrackEndEvent) ∅).1 "TrackEndEvent")
  /\ Forall (fun h => is_async_callable h = true)
       (event_hooks_of
          (add_event_hook [on_track_end; on_track_end; plain_function]
             (Some TrackEndEvent) ∅).1 "TrackEndEvent").
Proof.
  apply (add_event_hook_keeps_lists_clean
           [on_track_end; on_track_end; plain_function] (Some TrackEndEvent) ∅
           "TrackEndEvent"); constructor.
Defined.

(** X4. Hooks already registered keep their places: under every key, the
    list before the call is a prefix of the list after it. New hooks go to
    the end, so they are dispatched after the old ones. *)
Theorem add_event_hook_keeps_order (hooks : list Hook) (event : option PyClass)
    (reg : Registry) (key : string) :
  event_hooks_of reg key
    `prefix_of` event_hooks_of (add_event_hook hooks event reg).1 key.
Proof.
  destruct (add_event_hook_appends hooks event reg key) as (added & -> & _).
  by exists added.
Qed.

(** X5. A call touches the list of one key only, the name of its event
    (or [Generic]): the lists of all other keys are what they were. *)
Theorem add_event_hook_other_keys (hooks : list Hook) (event : option PyClass)
    (reg : Registry) (key : string) :
  key <> event_name_of event ->
  event_hooks_of (add_event_hook hooks event reg).1 key = event_hooks_of reg key.
Proof.
  intros Hkey. destruct (event_accepted event) eqn:Hev.
  - rewrite add_event_hook_accepted by done. simpl.
    by rewrite event_hooks_of_insert, decide_False.
  - by rewrite add_event_hook_rejected.
Qed.

Lemma add_event_hook_other_keys_witness :
  event_hooks_of (add_event_hook [on_track_end] (Some TrackEndEvent) two_and_one).1
    "Generic"
  = event_hooks_of two_and_one "Generic".
Proof.
  apply (add_event_hook_other_keys [on_track_end] (Some TrackEndEvent) two_and_one
           "Generic").
  discriminate.
Defined.

(** X6. A whole call made a second time, with any number of hooks, changes
    nothing more and ends as the first did: a call that raised raises
    again, a call that returned returns again. *)
Theorem add_event_hook_repeat (hooks : list Hook) (event : option PyClass)
    (reg : Registry) :
  let first := add_event_hook hooks event reg in
  add_event_hook hooks event first.1 = (first.1, first.2).
Proof. simpl. rewrite add_event_hook_again. by destruct (add_event_hook _ _ _). Qed.

(** X7. The registry is keyed by the name of the class, not by the class:
    two event arguments that pass the check and have the same key are the
    same to [add_event_hook]. So hooks registered for a class named
    [Generic] are registered as generic hooks. *)
Theorem add_event_hook_keyed_by_name (event1 event2 : option PyClass)
    (hooks : list Hook) (reg : Registry) :
  event_accepted event1 = true ->
  event_accepted event2 = true ->
  event_name_of event1 = event_name_of event2 ->
  add_event_hook hooks event1 reg = add_event_hook hooks event2 reg.
Proof.
  intros H1 H2 Hname. rewrite !add_event_hook_accepted by done.
  by rewrite Hname.
Qed.

Lemma add_event_hook_keyed_by_name_witness :
  add_event_hook [on_track_end] (Some GenericNamedEvent) ∅
  = add_event_hook [on_track_end] None ∅.
Proof.
  apply (add_event_hook_keyed_by_name (Some GenericNamedEvent) None
           [on_track_end] ∅); reflexivity.
Defined.

(** X8. Registrations under different keys do not interfere: made in
    either order they leave the same registry. *)
Theorem add_event_hook_commute (hooks1 hooks2 : list Hook)
    (event1 event2 : option PyClass) (reg : Registry) :
  event_name_of event1 <> event_name_of event2 ->
  (add_event_hook hooks2 event2 (add_event_hook hooks1 event1 reg).1).1
  = (add_event_hook hooks1 event1 (add_event_hook hooks2 event2 reg).1).1.
Proof.
  intros Hne.
  destruct (event_accepted event1) eqn:H1, (event_accepted event2) eqn:H2;
    rewrite ?(add_event_hook_rejected _ event1) by done;
    rewrite ?(add_event_hook_rejected _ event2) by done;
    rewrite ?(add_event_hook_accepted _ event1) by done;
    rewrite ?(add_event_hook_accepted _ event2) by done; simpl;
    rewrite ?(add_event_hook_rejected _ event1) by done;
    rewrite ?(add_event_hook_rejected _ event2) by done;
    rewrite ?(add_event_hook_accepted _ event1) by done;
    rewrite ?(add_event_hook_accepted _ event2) by done; simpl; try done.
  rewrite !event_hooks_of_insert, !decide_False by done.
  by apply insert_insert_ne.
Qed.

Lemma add_event_hook_commute_witness :
  (add_event_hook [on_any_event] None
     (add_event_hook [on_track_end] (Some TrackEndEvent) ∅).1).1
  = (add_event_hook [on_track_end] (Some TrackEndEvent)
       (add_event_hook [on_any_event] None ∅).1).1.
Proof.
  apply (add_event_hook_commute [on_track_end] [on_any_event]
           (Some TrackEndEvent) None ∅).
  discriminate.
Defined.

(** ** Invocation: what runs, in which order, and how it ends *)

Section InvocationOrder.

Import Application.
Import Hooks.

Variable self : ApplicationCommand.
Variable ctx : ApplicationContext.

Lemma async_all_world (gen : list (result bool)) (w : World) :
  (async_all gen w).1 = w.
Proof.
  induction gen as [|[[]|e] gen IH]; simpl; unfold bind, await, ret; simpl; done.
Qed.

Lemma async_all_false (pre post : list (result bool)) (w : World) :
  Forall (fun c => c = Ok true) pre ->
  async_all (pre ++ Ok false :: post) w = (w, Ok false).
Proof.
  induction 1 as [|c pre -> _ IH]; [done|].
  simpl. unfold bind, await in *. simpl. exact IH.
Qed.

Lemma can_run_world (w : World) :
  (can_run self ctx w).1 = MkWorld (trace w ++ [CanRun]) (ctx_command w).
Proof.
  unfold can_run, bind, enter, await, raise, ret. simpl.
  destruct (bot_can_run (bot ctx)) as [[]|e]; simpl; [|done|done].
  destruct (checks self) as [|c cs]; [done|]. apply async_all_world.
Qed.

(** Hooks awaited one after the other, as the bodies of
    [call_before_hooks] and [call_after_hooks] await them. *)
Lemma hooks_body (c1 c2 c3 : Call) (cg : option Cog) (local : option InvokeHook)
    (of_cog : Cog -> option (result unit)) (of_bot : option (result unit))
    (w : World) :
  let hs :=
    match local with Some h => [(c1, hook_outcome h)] | None => [] end
    ++ match cg with
       | Some c => match of_cog c with Some o => [(c2, o)] | None => [] end
       | None => []
       end
    ++ match of_bot with Some o => [(c3, o)] | None => [] end in
  (do_ call_local_hook c1 cg local;
   do_ match cg with
       | Some c => call_optional_hook c2 (of_cog c)
       | None => ret tt
       end;
   call_optional_hook c3 of_bot) w
  = (MkWorld (trace w ++ until_raise hs) (ctx_command w), first_error hs).
Proof.
  destruct w as [tr cc]. simpl.
  destruct local as [[s [[]|e1]]|], cg as [c|]; try destruct (of_cog c) as [[[]|e2]|];
    destruct of_bot as [[[]|e3]|];
    unfold call_local_hook, call_optional_hook, bind, enter, await, ret; simpl;
    try destruct s; simpl; rewrite <- ?app_assoc, ?app_nil_r; reflexivity.
Qed.

Lemma call_before_hooks_exact (w : World) :
  call_before_hooks self ctx w
  = (MkWorld (trace w ++ BeforeHooks :: until_raise (before_hooks_in_order self ctx))
       (ctx_command w),
     first_error (before_hooks_in_order self ctx)).
Proof.
  unfold call_before_hooks, before_hooks_in_order.
  unfold bind at 1. unfold enter at 1. cbn [fst snd].
  rewrite (hooks_body (BeforeHook LocalHook) (BeforeHook CogHook) (BeforeHook BotHook)
             (cog self) (_before_invoke self) cog_before_invoke).
  simpl. by rewrite <- app_assoc.
Qed.

Lemma call_after_hooks_exact (w : World) :
  call_after_hooks self ctx w
  = (MkWorld (trace w ++ AfterHooks :: until_raise (after_hooks_in_order self ctx))
       (ctx_command w),
     first_error (after_hooks_in_order self ctx)).
Proof.
  unfold call_after_hooks, after_hooks_in_order.
  unfold bind at 1. unfold enter at 1. cbn [fst snd].
  rewrite (hooks_body (AfterHook LocalHook) (AfterHook CogHook) (AfterHook BotHook)
             (cog self) (_after_invoke self) cog_after_invoke).
  simpl. by rewrite <- app_assoc.
Qed.

Lemma until_raise_all (hs : list (Call * result unit)) :
  first_error hs = Ok tt -> until_raise hs = map fst hs.
Proof.
  induction hs as [|[c [[]|e]] hs IH]; simpl; intros H; [done| |done].
  by rewrite IH.
Qed.

(** The world [prepare] runs the checks in: [ctx.command] is set. *)
Definition prepared_world (w : World) : World :=
  MkWorld (trace w) (Some (name self)).

Lemma prepare_exact (w : World) :
  prepare self ctx w =
    match (can_run self ctx (prepared_world w)).2 with
    | Ok true =>
        (MkWorld (trace w ++ CanRun :: BeforeHooks
                    :: until_raise (before_hooks_in_order self ctx))
           (Some (name self)),
         first_error (before_hooks_in_order self ctx))
    | Ok false =>
        (MkWorld (trace w ++ [CanRun]) (Some (name self)),
         Raise (CheckFailure
                  ("The check functions for the command " +:+ name self +:+ " failed")))
    | Raise e => (MkWorld (trace w ++ [CanRun]) (Some (name self)), Raise e)
    end.
Proof.
  unfold prepare. unfold bind at 1. cbn [fst snd]. unfold bind at 1.
  fold (prepared_world w).
  pose proof (can_run_world (prepared_world w)) as Hw.
  destruct (can_run self ctx (prepared_world w)) as [w1 r]. simpl in Hw. subst w1.
  destruct r as [[]|e]; simpl; [|done|done].
  rewrite call_before_hooks_exact. simpl. by rewrite <- app_assoc.
Qed.

(** What the callback, wrapped in the [except] clauses, comes to. *)
Definition wrapped_outcome : result unit :=
  (wrap_callback (await (_invoke self)) new_world).2.

Lemma invoke_exact (w : World) :
  (prepare self ctx w).2 = Ok tt ->
  invoke self ctx w =
    (MkWorld (trace (prepare self ctx w).1 ++ Callback :: AfterHooks
                :: until_raise (after_hooks_in_order self ctx))
       (Some (name self)),
     match first_error (after_hooks_in_order self ctx) with
     | Ok _ => wrapped_outcome
     | Raise e => Raise e
     end).
Proof.
  intros Hprep. unfold invoke. unfold bind at 1.
  assert (Hcmd : ctx_command (prepare self ctx w).1 = Some (name self)).
  { rewrite prepare_exact. by destruct (can_run _ _ _).2 as [[]|e]. }
  destruct (prepare self ctx w) as [w1 r]. simpl in Hprep, Hcmd. subst r.
  cbn [fst snd].
  unfold hooked_wrapped_callback, try_finally, try_except, run_invoke, wrapped_outcome,
    wrap_callback, try_except.
  unfold bind at 1. unfold enter at 1. unfold await, on_exception, ret, raise.
  cbn [fst snd].
  destruct (_invoke self) as [[]|e]; cbn [fst snd];
    [| destruct (is_ApplicationCommandError e), (is_CancelledError e), (is_Exception e) ];
    rewrite call_after_hooks_exact; cbn [trace ctx_command];
    rewrite <- app_assoc, Hcmd; simpl;
    by destruct (first_error (after_hooks_in_order self ctx)) as [[]|e'].
Qed.


(** X10. When an after-invoke hook raises, a prepared invocation ends with
    that exception, whatever the callback did: the outcome of the callback,
    also an exception it raised, is lost. *)
Theorem invoke_after_hook_error (w : World) (e : Exc) :
  (prepare self ctx w).2 = Ok tt ->
  first_error (after_hooks_in_order self ctx) = Raise e ->
  (invoke self ctx w).2 = Raise e.
Proof. intros Hprep Herr. rewrite invoke_exact by done. simpl. by rewrite Herr. Qed.

(** X11. [prepare] sets [ctx.command] to the command before anything
    else, so it is set also when a check fails or a hook raises, and it is
    still set when the invocation ends. *)
Theorem invoke_sets_command (w : World) :
  ctx_command (prepare self ctx w).1 = Some (name self)
  /\ ctx_command (invoke self ctx w).1 = Some (name self).
Proof.
  assert (Hprep : ctx_command (prepare self ctx w).1 = Some (name self)).
  { rewrite prepare_exact. by destruct (can_run _ _ _).2 as [[]|e]. }
  split; [done|].
  destruct (prepare self ctx w).2 as [[]|e] eqn:Hr.
  - by rewrite invoke_exact.
  - unfold invoke, bind. destruct (prepare self ctx w) as [w1 r].
    simpl in *. by subst r.
Qed.

(** X12. When the global check of the bot, or the first of the command's
    checks that is not true, is false, the invocation raises
    [CheckFailure] and nothing else is run: no before-hook, not the
    callback, no after-hook. Checks after the failing one are not looked
    at. *)
Theorem invoke_check_failure (w : World) :
  bot_can_run (bot ctx) = Ok false
  \/ (bot_can_run (bot ctx) = Ok true
      /\ exists pre post,
           checks self = pre ++ Ok false :: post
           /\ Forall (fun c => c = Ok true) pre) ->
  exists msg,
    invoke self ctx w
    = (MkWorld (trace w ++ [CanRun]) (Some (name self)), Raise (CheckFailure msg)).
Proof.
  intros Hfail. unfold invoke, bind. rewrite prepare_exact.
  assert (Hcan : (exists msg, (can_run self ctx (prepared_world w)).2
                              = Raise (CheckFailure msg))
                 \/ (can_run self ctx (prepared_world w)).2 = Ok false).
  { unfold can_run, bind, enter, await, raise, ret. cbn [fst snd].
    destruct Hfail as [-> | (-> & pre & post & Hchecks & Hpre)]; cbn [negb].
    - left. by eexists.
    - right. destruct (checks self) as [|c cs] eqn:E.
      { by destruct pre. }
      rewrite Hchecks. by rewrite async_all_false. }
  destruct Hcan as [[msg ->] | ->]; by eexists.
Qed.

(** X13. The before-invoke hooks are awaited in the order local, cog,
    bot, and the after-invoke hooks likewise; a hook that raises ends the
    run, so the hooks after it are not awaited, and its exception is the
    outcome. *)
Theorem hooks_run_in_order (w : World) :
  call_before_hooks self ctx w
  = (MkWorld (trace w ++ BeforeHooks :: until_raise (before_hooks_in_order self ctx))
       (ctx_command w),
     first_error (before_hooks_in_order self ctx))
  /\ call_after_hooks self ctx w
     = (MkWorld (trace w ++ AfterHooks :: until_raise (after_hooks_in_order self ctx))
          (ctx_command w),
        first_error (after_hooks_in_order self ctx)).
Proof. split; [apply call_before_hooks_exact | apply call_after_hooks_exact]. Qed.

(** X14. In a prepared invocation the coroutines are entered in this
    order: the checks, all the before-invoke hooks, the callback, then the
    after-invoke hooks up to the first that raises. The callback is entered
    once, and only after every before-hook has returned. *)
Theorem invoke_order (w : World) :
  (prepare self ctx w).2 = Ok tt ->
  trace (invoke self ctx w).1
  = trace w
    ++ [CanRun; BeforeHooks] ++ map fst (before_hooks_in_order self ctx)
    ++ [Callback; AfterHooks] ++ until_raise (after_hooks_in_order self ctx).
Proof.
  intros Hprep. rewrite invoke_exact by done. cbn [trace fst].
  rewrite prepare_exact in Hprep |- *.
  destruct (can_run self ctx (prepared_world w)).2 as [[]|e]; [|done|done].
  simpl in Hprep. simpl. rewrite (until_raise_all _ Hprep).
  by rewrite <- !app_assoc.
Qed.


End InvocationOrder.


Lemma invoke_after_hook_error_witness :
  (Application.invoke command_failing_after a_context Application.new_world).2
  = Raise (OtherException "IOError").
Proof.
  apply (invoke_after_hook_error command_failing_after a_context
           Application.new_world); reflexivity.
Defined.

Lemma invoke_check_failure_witness :
  exists msg,
    Application.invoke command_failing_check a_context Application.new_world
    = (Application.MkWorld
         (Application.trace Application.new_world ++ [Application.CanRun])
         (Some (Application.name command_failing_check)),
       Raise (CheckFailure msg)).
Proof.
  apply (invoke_check_failure command_failing_check a_context Application.new_world).
  right. split; [reflexivity|].
  exists [Ok true], [Raise (OtherException "KeyError")].
  split; [reflexivity | by constructor].
Defined.

Lemma invoke_order_witness :
  Application.trace
    (Application.invoke command_failing_after a_context Application.new_world).1
  = Application.trace Application.new_world
    ++ [Application.CanRun; Application.BeforeHooks]
    ++ map fst (Hooks.before_hooks_in_order command_failing_after a_context)
    ++ [Application.Callback; Application.AfterHooks]
    ++ Hooks.until_raise (Hooks.after_hooks_in_order command_failing_after a_context).
Proof.
  apply (invoke_order command_failing_after a_context Application.new_world).
  reflexivity.
Defined.


(** ** Error dispatch *)

Section ErrorDispatching.

Import ErrorDispatch.

Variable self : Application.ApplicationCommand.

(** The outcome of the cog's handler, when there is a cog that overrides
    [cog_command_error]. *)
Definition cog_handler_outcome (cog_command_error : option (result unit))
  : result unit :=
  match Application.cog self, cog_command_error with
  | Some _, Some local => wrapped local
  | _, _ => Ok tt
  end.

(** X16. When the command has no error handler of its own, or has one
    that returns (or is cancelled), [dispatch_error] marks the context as
    failed and has the bot dispatch [application_command_error] exactly
    once, as the last thing it does, also when the handler of the cog
    raises; the outcome is then that of the cog's handler. *)
Theorem dispatch_error_dispatches (on_error cog_command_error : option (result unit))
    (s : ErrorWorld) :
  on_error = None \/ (exists coro, on_error = Some coro /\ wrapped coro = Ok tt) ->
  let out := dispatch_error self on_error cog_command_error s in
  command_failed out.1 = true
  /\ dispatches out.1 = S (dispatches s)
  /\ last (error_calls out.1) = Some (BotDispatch "application_command_error")
  /\ out.2 = cog_handler_outcome cog_command_error.
Proof.
  intros Hlocal. destruct s as [failed calls].
  unfold cog_handler_outcome, dispatch_error, dispatches, bind, try_finally, call,
    await_wrapped, ret.
  destruct Hlocal as [-> | (coro & -> & Hcoro)];
    destruct (Application.cog self) as [c|], cog_command_error as [local|];
    simpl; rewrite ?Hcoro; simpl;
    try destruct (wrapped local) as [[]|e]; simpl;
    rewrite ?filter_app, ?length_app, ?last_snoc; simpl;
    repeat split; try done; lia.
Qed.

(** X17. When the command's own error handler raises, [dispatch_error]
    ends there with that exception: the handler of the cog is not called
    and the bot does not dispatch [application_command_error]. *)
Theorem dispatch_error_local_handler_raises (coro : result unit)
    (cog_command_error : option (result unit)) (e : Exc) (s : ErrorWorld) :
  wrapped coro = Raise e ->
  dispatch_error self (Some coro) cog_command_error s
  = (MkErrorWorld true
       (error_calls s ++ [OnError (bool_decide (is_Some (Application.cog self)))]),
     Raise e).
Proof.
  intros Hcoro. unfold dispatch_error, bind, call, await_wrapped.
  destruct (Application.cog self) as [c|]; simpl; by rewrite Hcoro.
Qed.

End ErrorDispatching.

Lemma dispatch_error_dispatches_witness :
  let out :=
    ErrorDispatch.dispatch_error
      (Application.MkCommand "play" (Some (Application.MkCog None None)) [] None None
         (Ok tt))
      (Some (Raise CancelledError)) (Some (Raise (OtherException "KeyError")))
      (ErrorDispatch.MkErrorWorld false []) in
  ErrorDispatch.command_failed out.1 = true
  /\ ErrorDispatch.dispatches out.1
     = S (ErrorDispatch.dispatches (ErrorDispatch.MkErrorWorld false []))
  /\ last (ErrorDispatch.error_calls out.1)
     = Some (ErrorDispatch.BotDispatch "application_command_error")
  /\ out.2
     = cog_handler_outcome
         (Application.MkCommand "play" (Some (Application.MkCog None None)) [] None
            None (Ok tt))
         (Some (Raise (OtherException "KeyError"))).
Proof.
  apply (dispatch_error_dispatches
           (Application.MkCommand "play" (Some (Application.MkCog None None)) [] None
              None (Ok tt))
           (Some (Raise CancelledError)) (Some (Raise (OtherException "KeyError")))
           (ErrorDispatch.MkErrorWorld false [])).
  right. exists (Raise CancelledError). split; reflexivity.
Defined.

Lemma dispatch_error_local_handler_raises_witness :
  ErrorDispatch.dispatch_error (command_with (Ok tt))
    (Some (Raise (OtherException "ValueError"))) (Some (Ok tt))
    (ErrorDispatch.MkErrorWorld false [])
  = (ErrorDispatch.MkErrorWorld true
       (ErrorDispatch.error_calls (ErrorDispatch.MkErrorWorld false [])
        ++ [ErrorDispatch.OnError
              (bool_decide (is_Some (Application.cog (command_with (Ok tt)))))]),
     Raise (ApplicationCommandInvokeError (OtherException "ValueError"))).
Proof.
  apply (dispatch_error_local_handler_raises (command_with (Ok tt))
           (Raise (OtherException "ValueError")) (Some (Ok tt))
           (ApplicationCommandInvokeError (OtherException "ValueError"))
           (ErrorDispatch.MkErrorWorld false [])).
  reflexivity.
Defined.

(** ** Handler registration *)

Section HandlerRegistration.

Import Decorators.

Lemma decorate_all_on_error (uses : list (Decorator * Hook)) (self : Attrs) :
  on_error (decorate_all uses self) =
    match last (error_handlers uses) with
    | Some h => Some h
    | None => on_error self
    end.
Proof.
  revert self. induction uses as [|[d coro] uses IH]; intros self; [done|].
  simpl. rewrite IH. unfold error_handlers. simpl.
  destruct d; simpl; unfold error, before_invoke, after_invoke;
    destruct (iscoroutinefunction coro); simpl; try done.
  rewrite last_cons. by destruct (last _).
Qed.

(** X18. A decorator used with something that is not a coroutine function
    raises [TypeError] and leaves the command as it was. After any series
    of uses on a new command, the error handler is the last coroutine
    function given to [error], and [has_error_handler] tells whether there
    was one. *)
Theorem decorators_history (uses : list (Decorator * Hook)) :
  (forall d coro self,
     iscoroutinefunction coro = false ->
     exists msg, decorate d coro self = (self, Raise (TypeError msg)))
  /\ on_error (decorate_all uses new_attrs) = last (error_handlers uses)
  /\ (has_error_handler (decorate_all uses new_attrs) = true <->
      exists coro, (UseError, coro) ∈ uses /\ iscoroutinefunction coro = true).
Proof.
  split; [|split].
  - intros d coro self Hc.
    destruct d; unfold decorate, error, before_invoke, after_invoke;
      rewrite Hc; by eexists.
  - rewrite decorate_all_on_error. by destruct (last _).
  - unfold has_error_handler. rewrite bool_decide_eq_true, decorate_all_on_error.
    assert (Hlast : is_Some (last (error_handlers uses)) <->
                    exists coro, (UseError, coro) ∈ uses
                                 /\ iscoroutinefunction coro = true).
    { rewrite last_is_Some. unfold error_handlers. split.
      - intros Hne. destruct (omap _ uses) as [|h hs] eqn:E; [done|].
        assert (Hh : h ∈ omap (fun '(d, coro) =>
                       match d with
                       | UseError => if iscoroutinefunction coro then Some coro else None
                       | _ => None
                       end) uses) by (rewrite E; by left).
        apply list_elem_of_omap in Hh as ([d coro] & Hin & Hsome).
        destruct d; try done. destruct (iscoroutinefunction coro) eqn:Hc; [|done].
        by exists coro.
      - intros (coro & Hin & Hc) Hnil.
        assert (Hh : coro ∈ omap (fun '(d, coro) =>
                       match d with
                       | UseError => if iscoroutinefunction coro then Some coro else None
                       | _ => None
                       end) uses).
        { apply list_elem_of_omap. exists (UseError, coro). by rewrite Hc. }
        rewrite Hnil in Hh. by apply elem_of_nil in Hh. }
    rewrite <- Hlast. destruct (last (error_handlers uses)); simpl.
    + split; by eauto.
    + split; intros H; by destruct H.
Qed.

End HandlerRegistration.

(** ** Qualified names *)

Section QualifiedNames.

Import Names.

Lemma append_assoc (a b c : string) : (a +:+ b) +:+ c = a +:+ b +:+ c.
Proof.
  induction a as [|x a IH]; [done|].
  change (String x ((a +:+ b) +:+ c) = String x (a +:+ b +:+ c)). by f_equal.
Qed.

Lemma append_empty (a b : string) : a +:+ b = "" -> a = "".
Proof.
  destruct a as [|x a]; [done|]. intros H.
  change (String x (a +:+ b) = "") in H. discriminate.
Qed.

Lemma concat_snoc (sep x : string) (l : list string) :
  String.concat sep (l ++ [x]) =
    match l with
    | [] => x
    | _ => String.concat sep l +:+ sep +:+ x
    end.
Proof.
  induction l as [|y l IH]; [done|].
  destruct l as [|z l]; [done|].
  change (String.concat sep ((y :: z :: l) ++ [x]))
    with (y +:+ sep +:+ String.concat sep ((z :: l) ++ [x])).
  rewrite IH.
  change (String.concat sep (y :: z :: l))
    with (y +:+ sep +:+ String.concat sep (z :: l)).
  by rewrite !append_assoc.
Qed.

Lemma concat_empty (sep : string) (l : list string) :
  Forall (fun n => n <> "") l -> String.concat sep l = "" -> l = [].
Proof.
  intros Hl Hc. destruct Hl as [|x l Hx Hl]; [done|]. exfalso.
  destruct l as [|y l]; [by cbn in Hc|].
  change (x +:+ sep +:+ String.concat sep (y :: l) = "") in Hc.
  by apply append_empty in Hc.
Qed.

Lemma truthy_true (s : string) : truthy s = true <-> s <> "".
Proof.
  unfold truthy. rewrite negb_true_iff. split.
  - intros H ->. by rewrite String.eqb_refl in H.
  - intros H. by apply String.eqb_neq.
Qed.

(** X19. For a command below a named parent, with no empty name on the
    way up, the full parent name is the qualified name of the parent, and
    the qualified name is that, a space, and the command's own name. *)
Theorem qualified_name_of_child (name parent_name : string) (above : Parent) :
  parent_name <> "" ->
  Forall (fun n => n <> "") (entries above) ->
  full_parent_name (Named parent_name above) = qualified_name parent_name above
  /\ qualified_name name (Named parent_name above)
     = qualified_name parent_name above +:+ " " +:+ name.
Proof.
  intros Hp Habove.
  assert (Hfull : full_parent_name (Named parent_name above)
                  = qualified_name parent_name above).
  { unfold qualified_name, full_parent_name. simpl entries.
    rewrite reverse_cons, concat_snoc.
    destruct (reverse (entries above)) as [|n ns] eqn:Hrev; [done|].
    rewrite (proj2 (truthy_true _)); [done|].
    intros Hempty. apply concat_empty in Hempty; [done|].
    rewrite <- Hrev. by apply Forall_reverse. }
  split; [done|].
  unfold qualified_name at 1. rewrite Hfull.
  rewrite (proj2 (truthy_true _)); [done|].
  unfold qualified_name. destruct (truthy (full_parent_name above)) eqn:Ht; [|done].
  intros Hempty. apply append_empty in Hempty.
  apply truthy_true in Ht. done.
Qed.

End QualifiedNames.

Lemma qualified_name_of_child_witness :
  Names.full_parent_name (Names.Named "queue" (Names.Named "music" Names.NoParent))
  = Names.qualified_name "queue" (Names.Named "music" Names.NoParent)
  /\ Names.qualified_name "clear"
       (Names.Named "queue" (Names.Named "music" Names.NoParent))
     = Names.qualified_name "queue" (Names.Named "music" Names.NoParent)
       +:+ " " +:+ "clear".
Proof.
  apply (qualified_name_of_child "clear" "queue" (Names.Named "music" Names.NoParent)).
  - discriminate.
  - repeat constructor. discriminate.
Defined.

(** A command three levels down, and a command with no parent. *)
Example qualified_name_examples :
  Names.qualified_name "clear"
    (Names.Named "queue" (Names.Named "music" Names.NoParent)) = "music queue clear"
  /\ Names.full_parent_name
       (Names.Named "queue" (Names.Named "music" Names.NoParent)) = "music queue"
  /\ Names.qualified_name "ping" Names.NoParent = "ping"
  /\ Names.qualified_name "clear" (Names.Named "queue" Names.Unnamed) = "queue clear".
Proof. repeat split. Qed.

(** ** Copies of a command *)

Section Copies.

Import Copying.

Variable validate : Kwargs -> result unit.

Lemma new_kwargs (kwargs : Kwargs) (cc cc' : CallbackChecks) (c : SlashCommand) :
  new validate kwargs cc = (cc', Ok c) ->
  __original_kwargs__ c = kwargs
  /\ _before_invoke c = None /\ _after_invoke c = None /\ on_error c = None
  /\ match cc with
     | Some l => cc' = Some (reverse l) /\ checks c = OfCallback
     | None => cc' = None
               /\ checks c = Own (default (KwChecks []) (kwargs !! "checks"))
     end.
Proof.
  unfold new. destruct (validate kwargs) as [[]|e]; [|done].
  destruct cc as [l|]; intros [= <- <-]; by repeat split.
Qed.

Lemma ensure_assignment (self other c : SlashCommand) (cc : CallbackChecks) :
  _ensure_assignment_on_copy self other cc = Ok c ->
  __original_kwargs__ c = __original_kwargs__ other
  /\ _before_invoke c = _before_invoke self
  /\ _after_invoke c = _after_invoke self
  /\ on_error c = match on_error self with Some h => Some h | None => on_error other end
  /\ checks_value cc (checks c) = checks_value cc (checks self).
Proof.
  unfold _ensure_assignment_on_copy. case_bool_decide as Hne.
  - destruct (checks_value cc (checks self)) as [l|v] eqn:Hmine; [|done].
    intros [= <-]. by repeat split.
  - intros [= <-]. simpl.
    destruct (decide (checks_value cc (checks self)
                      = checks_value cc (checks other))) as [Heq|]; [|done].
    by repeat split.
Qed.

(** X20. [_update_copy] does not let the new keyword arguments replace
    those the command was made with: in the arguments the copy is made
    with, a key the original had keeps the original's value, and only keys
    the original did not have come from the new arguments. *)
Theorem update_copy_keeps_original_kwargs (self c : SlashCommand) (kwargs : Kwargs)
    (cc : CallbackChecks) (key : string) :
  (_update_copy validate self kwargs cc).2 = Ok c ->
  __original_kwargs__ c !! key =
    match __original_kwargs__ self !! key with
    | Some v => Some v
    | None => kwargs !! key
    end.
Proof.
  unfold _update_copy, copy, dict_update. case_bool_decide as Hk.
  - destruct (new validate _ cc) as [cc' [ret|e]] eqn:Hnew; simpl; [|done].
    intros Hc. apply ensure_assignment in Hc as (-> & _).
    apply new_kwargs in Hnew as (-> & _).
    rewrite lookup_union. by destruct (_ !! key), (kwargs !! key).
  - destruct (new validate _ cc) as [cc' [ret|e]] eqn:Hnew; simpl; [|done].
    intros Hc. apply ensure_assignment in Hc as (-> & _).
    apply new_kwargs in Hnew as (-> & _).
    assert (kwargs = ∅) as -> by by destruct (decide (kwargs = ∅)).
    rewrite lookup_empty. by destruct (_ !! key).
Qed.

(** X21. A copy, made by [copy] or by [_update_copy], has the hooks and
    the error handler of the command it was made from, and its checks read
    the same as those of that command. *)
Theorem copy_keeps_handlers (self c : SlashCommand) (kwargs : Kwargs)
    (cc cc' : CallbackChecks) :
  _update_copy validate self kwargs cc = (cc', Ok c)
  \/ copy validate self cc = (cc', Ok c) ->
  _before_invoke c = _before_invoke self
  /\ _after_invoke c = _after_invoke self
  /\ on_error c = on_error self
  /\ checks_value cc' (checks c) = checks_value cc' (checks self).
Proof.
  assert (Hmade : forall kw,
    match new validate kw cc with
    | (cc1, Ok ret) => (cc1, _ensure_assignment_on_copy self ret cc1)
    | (cc1, Raise e) => (cc1, Raise e)
    end = (cc', Ok c) ->
    _before_invoke c = _before_invoke self
    /\ _after_invoke c = _after_invoke self
    /\ on_error c = on_error self
    /\ checks_value cc' (checks c) = checks_value cc' (checks self)).
  { intros kw. destruct (new validate kw cc) as [cc1 [ret|e]] eqn:Hnew; [|done].
    intros [= -> Hc]. apply ensure_assignment in Hc as (_ & -> & -> & Herr & ->).
    apply new_kwargs in Hnew as (_ & _ & _ & Hnone & _).
    rewrite Herr, Hnone. by destruct (on_error self). }
  intros [H | H].
  - unfold _update_copy in H. case_bool_decide; [by eapply Hmade|].
    by apply (Hmade (__original_kwargs__ self)).
  - by apply (Hmade (__original_kwargs__ self)).
Qed.

(** X22. The checks of a command made from a callback with
    [__commands_checks__] are that list itself, which [__init__] reverses
    in place. Making a copy runs [__init__] on the same list again: after
    [copy], the checks of the original command read in the opposite order,
    and the copy shares them. *)
Theorem copy_reverses_shared_checks (kwargs : Kwargs) (l : list nat)
    (cc1 cc2 : CallbackChecks) (self c : SlashCommand) :
  new validate kwargs (Some l) = (cc1, Ok self) ->
  copy validate self cc1 = (cc2, Ok c) ->
  checks_value cc1 (checks self) = KwChecks (reverse l)
  /\ checks_value cc2 (checks self) = KwChecks l
  /\ checks_value cc2 (checks c) = KwChecks l.
Proof.
  intros Hnew Hcopy.
  apply new_kwargs in Hnew as (Hkw & _ & _ & _ & -> & Hchecks).
  unfold copy in Hcopy.
  destruct (new validate (__original_kwargs__ self) (Some (reverse l)))
    as [cc [ret|e]] eqn:Hnew'; [|done].
  injection Hcopy as -> Hc.
  apply new_kwargs in Hnew' as (_ & _ & _ & _ & -> & _).
  apply ensure_assignment in Hc as (_ & _ & _ & _ & ->).
  rewrite Hchecks. simpl. by rewrite reverse_involutive.
Qed.

End Copies.

(** Keyword arguments, and a construction that accepts every argument. *)
Definition kwargs_play : Copying.Kwargs :=
  {[ "name" := Copying.KwOther "play"; "description" := Copying.KwOther "Play a track" ]}.

Definition kwargs_new : Copying.Kwargs :=
  {[ "name" := Copying.KwOther "stop"; "guild_ids" := Copying.KwOther "[1]" ]}.

Definition accept_all : Copying.Kwargs -> result unit := fun _ => Ok tt.

Definition command_play : Copying.SlashCommand :=
  Copying.MkSlashCommand kwargs_play Copying.OfCallback
    (Some on_track_end) None (Some on_any_event).

Lemma update_copy_keeps_original_kwargs_witness :
  Copying.__original_kwargs__
    (Copying.MkSlashCommand (kwargs_play ∪ kwargs_new) Copying.OfCallback
       (Some on_track_end) None (Some on_any_event)) !! "name"
  = match Copying.__original_kwargs__ command_play !! "name" with
    | Some v => Some v
    | None => kwargs_new !! "name"
    end.
Proof.
  apply (update_copy_keeps_original_kwargs accept_all command_play
           (Copying.MkSlashCommand (kwargs_play ∪ kwargs_new) Copying.OfCallback
              (Some on_track_end) None (Some on_any_event))
           kwargs_new (Some [1; 2; 3]) "name").
  vm_compute. reflexivity.
Defined.

Lemma copy_keeps_handlers_witness :
  Copying._before_invoke
    (Copying.MkSlashCommand kwargs_play Copying.OfCallback
       (Some on_track_end) None (Some on_any_event))
  = Copying._before_invoke command_play
  /\ Copying._after_invoke
       (Copying.MkSlashCommand kwargs_play Copying.OfCallback
          (Some on_track_end) None (Some on_any_event))
     = Copying._after_invoke command_play
  /\ Copying.on_error
       (Copying.MkSlashCommand kwargs_play Copying.OfCallback
          (Some on_track_end) None (Some on_any_event))
     = Copying.on_error command_play
  /\ Copying.checks_value (Some [3; 2; 1])
       (Copying.checks
          (Copying.MkSlashCommand kwargs_play Copying.OfCallback
             (Some on_track_end) None (Some on_any_event)))
     = Copying.checks_value (Some [3; 2; 1]) (Copying.checks command_play).
Proof.
  apply (copy_keeps_handlers accept_all command_play
           (Copying.MkSlashCommand kwargs_play Copying.OfCallback
              (Some on_track_end) None (Some on_any_event))
           ∅ (Some [1; 2; 3]) (Some [3; 2; 1])).
  right. vm_compute. reflexivity.
Defined.

Lemma copy_reverses_shared_checks_witness :
  Copying.checks_value (Some [3; 2; 1])
    (Copying.checks (Copying.MkSlashCommand kwargs_play Copying.OfCallback None None None))
  = Copying.KwChecks (reverse [1; 2; 3])
  /\ Copying.checks_value (Some [1; 2; 3])
       (Copying.checks
          (Copying.MkSlashCommand kwargs_play Copying.OfCallback None None None))
     = Copying.KwChecks [1; 2; 3]
  /\ Copying.checks_value (Some [1; 2; 3])
       (Copying.checks
          (Copying.MkSlashCommand kwargs_play Copying.OfCallback None None None))
     = Copying.KwChecks [1; 2; 3].
Proof.
  apply (copy_reverses_shared_checks accept_all kwargs_play [1; 2; 3]
           (Some [3; 2; 1]) (Some [1; 2; 3])
           (Copying.MkSlashCommand kwargs_play Copying.OfCallback None None None)
           (Copying.MkSlashCommand kwargs_play Copying.OfCallback None None None));
    vm_compute; reflexivity.
Defined.

(** ** Errors before the callback *)

Section BeforeTheCallback.

Import Application.
Import Hooks.

Variable self : ApplicationCommand.
Variable ctx : ApplicationContext.

Lemma async_all_raise (pre post : list (result bool)) (e : Exc) (w : World) :
  Forall (fun c => c = Ok true) pre ->
  async_all (pre ++ Raise e :: post) w = (w, Raise e).
Proof.
  induction 1 as [|c pre -> _ IH]; [done|].
  simpl. unfold bind, await in *. simpl. exact IH.
Qed.

Lemma async_all_true (gen : list (result bool)) (w : World) :
  Forall (fun c => c = Ok true) gen -> async_all gen w = (w, Ok true).
Proof.
  induction 1 as [|c gen -> _ IH]; [done|].
  simpl. unfold bind, await in *. simpl. exact IH.
Qed.

Lemma until_raise_before (hs : list (Call * result unit)) :
  Forall (fun h => h.1 <> Callback /\ h.1 <> AfterHooks) hs ->
  (Callback ∉ until_raise hs) /\ (AfterHooks ∉ until_raise hs).
Proof.
  induction 1 as [|[c [[]|e]] hs [Hc Ha] _ [IHc IHa]]; simpl in *.
  - split; by intros ?%elem_of_nil.
  - split; intros [Heq|?]%elem_of_cons; by subst.
  - split; intros Heq%list_elem_of_singleton; by subst.
Qed.

Lemma before_hooks_calls :
  Forall (fun h => h.1 <> Callback /\ h.1 <> AfterHooks)
    (before_hooks_in_order self ctx).
Proof.
  unfold before_hooks_in_order.
  destruct (_before_invoke self), (cog self) as [c|];
    try destruct (cog_before_invoke c);
    destruct (bot_before_invoke (bot ctx)); simpl;
    repeat constructor; done.
Qed.

(** X23. An exception raised by a check or by a before-invoke hook ends
    the invocation as it is: it is not wrapped in
    [ApplicationCommandInvokeError], the callback is not entered, and no
    after-invoke hook is run. *)
Theorem invoke_error_before_callback (w : World) (e : Exc) :
  bot_can_run (bot ctx) = Raise e
  \/ (bot_can_run (bot ctx) = Ok true
      /\ exists pre post,
           checks self = pre ++ Raise e :: post
           /\ Forall (fun c => c = Ok true) pre)
  \/ (bot_can_run (bot ctx) = Ok true
      /\ Forall (fun c => c = Ok true) (checks self)
      /\ first_error (before_hooks_in_order self ctx) = Raise e) ->
  exists ran,
    invoke self ctx w = (MkWorld (trace w ++ ran) (Some (name self)), Raise e)
    /\ (Callback ∉ ran) /\ (AfterHooks ∉ ran).
Proof.
  intros Hcases. unfold invoke. unfold bind at 1. rewrite prepare_exact.
  assert (Hone : (Callback ∉ [CanRun]) /\ (AfterHooks ∉ [CanRun])).
  { split; intros Heq%list_elem_of_singleton; done. }
  assert (Hcan : (can_run self ctx (prepared_world self w)).2 = Raise e
                 \/ ((can_run self ctx (prepared_world self w)).2 = Ok true
                     /\ first_error (before_hooks_in_order self ctx) = Raise e)).
  { unfold can_run, bind, enter, await, raise, ret. cbn [fst snd].
    destruct Hcases as [-> | [(-> & pre & post & Hchecks & Hpre)
                             | (-> & Hall & Herr)]]; cbn [negb].
    - by left.
    - left. destruct (checks self) as [|c cs] eqn:E; [by destruct pre|].
      rewrite Hchecks. by rewrite async_all_raise.
    - right. split; [|done].
      destruct (checks self) as [|c cs] eqn:E; [done|].
      by rewrite async_all_true. }
  destruct Hcan as [-> | [-> Herr]].
  - by exists [CanRun].
  - rewrite Herr.
    exists (CanRun :: BeforeHooks :: until_raise (before_hooks_in_order self ctx)).
    split; [done|].
    destruct (until_raise_before _ before_hooks_calls) as [Hc Ha].
    split; intros [?|[?|?]%elem_of_cons]%elem_of_cons; done.
Qed.

End BeforeTheCallback.

(** A command whose own before-invoke hook raises. *)
Definition command_failing_before : Application.ApplicationCommand :=
  Application.MkCommand "play" None [Ok true]
    (Some (Application.MkInvokeHook false (Raise (OtherException "IOError"))))
    None (Ok tt).

Lemma invoke_error_before_callback_witness :
  exists ran,
    Application.invoke command_failing_before a_context Application.new_world
    = (Application.MkWorld (Application.trace Application.new_world ++ ran)
         (Some (Application.name command_failing_before)),
       Raise (OtherException "IOError"))
    /\ (Application.Callback ∉ ran) /\ (Application.AfterHooks ∉ ran).
Proof.
  apply (invoke_error_before_callback command_failing_before a_context
           Application.new_world (OtherException "IOError")).
  right. right. split; [reflexivity|]. split; [|reflexivity].
  by repeat constructor.
Defined.
